(** * Well-graded union-closed families: a model of [uc_well_graded.py]

    Elements are Python integers ([Z]); a set is a [frozenset] of elements
    ([gset Z]); a family is a Python [set] of frozensets ([gset (gset Z)]).
    Both are compared by content, as in Python.

    A Python [for x in s] over a set visits the members in an order the
    language does not fix.  The model takes that order as a parameter, a
    function of the content of the set: [iterZ] lists the members of a
    set of elements, [iterF] the members of a family.  Every loop of the
    source is a recursion over such a list, and the results below hold for
    every choice of the two orders.

    The [while] loop of [create_family_from_base] is run on fuel, one
    unit for each execution of its body; [size base] units suffice. *)

From Stdlib Require Import Ascii String.
From stdpp Require Import gmap strings pretty sorting list fin_sets fin_maps.

#[local] Set Warnings "-clear-no-such-hyp".

Abbreviation pyset := (gset Z) (only parsing).
Abbreviation family := (gset (gset Z)) (only parsing).

(** The character [\] and Python's [sep.join(strs)]. *)
Definition backslash : string := String "092"%char EmptyString.

Definition join (sep : string) (strs : list string) : string :=
  String.concat sep strs.

(** [for x in l: ...] whose body may [return]: [None] means the loop ran
    to its end, [Some r] that the body returned [r] at some member. *)
Fixpoint for_return {A R : Type} (l : list A) (body : A → option R)
  : option R :=
  match l with
  | [] => None
  | x :: l' =>
      match body x with
      | Some r => Some r
      | None => for_return l' body
      end
  end.

(** The members of [l] at which the body of that loop is run: all of
    them, or those up to the one where the body returns. *)
Fixpoint for_visited {A R : Type} (l : list A) (body : A → option R)
  : list A :=
  match l with
  | [] => []
  | x :: l' =>
      x :: match body x with
           | Some _ => []
           | None => for_visited l' body
           end
  end.

Section Model.
Variable iterZ : pyset → list Z.
Variable iterF : family → list (gset Z).

(** ** Predicates on pairs of members *)

(** The body of the inner loop of [is_X_closed], run at the pair
    [(A, B)]. *)
Definition X_closed_body (sets : family) (X A B : pyset) : option bool :=
  let inter := A ∩ B in
  if bool_decide (X ⊂ inter) && bool_decide (inter ∉ sets)
  then Some false else None.

Definition is_X_closed (sets : family) (X : pyset) : bool :=
  default true
    (for_return (iterF sets) (λ A,
       for_return (iterF (sets ∖ {[A]})) (X_closed_body sets X A))).

(** The pairs at which [is_X_closed] runs that body, in order. *)
Definition is_X_closed_visited (sets : family) (X : pyset)
  : list (gset Z * gset Z) :=
  A ← for_visited (iterF sets) (λ A,
        for_return (iterF (sets ∖ {[A]})) (X_closed_body sets X A));
  B ← for_visited (iterF (sets ∖ {[A]})) (X_closed_body sets X A);
  [(A, B)].

(** ** Projection *)

Definition project_family (sets : family) (X : pyset) : family :=
  foldl (λ proj_family A, proj_family ∪ {[A ∖ X]}) ∅ (iterF sets).

(** ** Surmise system *)

(** The inner loop over [q_surmise.copy()]: the family is edited while
    its snapshot [copy] is scanned; the boolean is [is_minimal], and a
    [break] leaves the family as edited so far. *)
Fixpoint surmise_scan (curr_set : pyset) (copy : list (gset Z))
    (q_surmise : family) : family * bool :=
  match copy with
  | [] => (q_surmise, true)
  | sur_set :: copy' =>
      if bool_decide (curr_set ⊂ sur_set)
      then surmise_scan curr_set copy' (q_surmise ∖ {[sur_set]})
      else if bool_decide (sur_set ⊂ curr_set)
           then (q_surmise, false)
           else surmise_scan curr_set copy' q_surmise
  end.

(** One round of [for curr_set in sets] for the element [q]. *)
Definition surmise_step (q : Z) (q_surmise : family) (curr_set : pyset)
  : family :=
  if bool_decide (q ∈ curr_set) then
    if bool_decide (0 < size q_surmise) then
      let '(q_surmise', is_minimal) :=
        surmise_scan curr_set (iterF q_surmise) q_surmise in
      if is_minimal then q_surmise' ∪ {[curr_set]} else q_surmise'
    else q_surmise ∪ {[curr_set]}
  else q_surmise.

Definition get_universe (sets : family) : pyset :=
  foldl (λ universe curr_set, universe ∪ curr_set) ∅ (iterF sets).

Definition get_surmise (sets : family) : gmap Z (gset (gset Z)) :=
  let universe := get_universe sets in
  foldl (λ surmise q,
           <[q := foldl (surmise_step q) ∅ (iterF sets)]> surmise)
        ∅ (iterZ universe).

(** ** Unique atoms and well-gradedness *)

(** The two counters of [has_unique_atoms] after its loops: the family
    [surmise_sets] and the number [surmise_count].  A dict is visited in
    insertion order, which for [surmise] is the order of its keys in
    [universe]. *)
Definition count_atoms (surmise : gmap Z (gset (gset Z)))
  : family * nat :=
  foldl (λ st q,
           foldl (λ '(surmise_sets, surmise_count) curr_set,
                    (surmise_sets ∪ {[curr_set]}, S surmise_count))
                 st (iterF (surmise !!! q)))
        (∅, 0) (iterZ (dom surmise)).

Definition has_unique_atoms (sets : family) : bool :=
  let surmise := get_surmise sets in
  let '(surmise_sets, surmise_count) := count_atoms surmise in
  if bool_decide (surmise_count = size surmise_sets) then true else false.

Definition curr_proj_str (b : pyset) : string :=
  "F" +:+ backslash +:+ "{" +:+ join "," (pretty <$> iterZ b) +:+ "}".

Definition error_line (b : pyset) : string :=
  "ERROR: " +:+ curr_proj_str b +:+ " is not well-graded".

Definition pass_line (b : pyset) : string :=
  curr_proj_str b +:+ " is well-graded".

(** [is_well_graded] prints as it goes: the result pairs the lines
    written to standard output with the returned boolean. *)
Fixpoint is_well_graded_loop (sets : family) (bs : list (gset Z))
    (out : list string) : list string * bool :=
  match bs with
  | [] => (out, true)
  | b :: bs' =>
      let proj_sets := project_family sets b in
      if negb (has_unique_atoms proj_sets)
      then (out ++ [error_line b], false)
      else is_well_graded_loop sets bs' (out ++ [pass_line b])
  end.

Definition is_well_graded (sets base : family) : list string * bool :=
  is_well_graded_loop sets (iterF base)
    ["Checking if each projection is well-graded..."].

(** ** Closure under union *)

(** The body of the [while] loop: every [a ∪ b], [a] in the snapshot
    [prev_fam] and [b] in [base], is added to [uc_fam]. *)
Definition union_pass (base uc_fam : family) : family :=
  let prev_fam := uc_fam in
  foldl (λ uc_fam a,
           foldl (λ uc_fam b, uc_fam ∪ {[a ∪ b]}) uc_fam (iterF base))
        uc_fam (iterF prev_fam).

(** The [while curr_size > prev_size] loop; one unit of [fuel] pays for
    one execution of its body. *)
Fixpoint create_family_loop (fuel : nat) (base uc_fam : family)
    (curr_size prev_size : nat) : option (gset (gset Z)) :=
  if bool_decide (prev_size < curr_size) then
    match fuel with
    | O => None
    | S fuel' =>
        let uc_fam' := union_pass base uc_fam in
        create_family_loop fuel' base uc_fam' (size uc_fam') curr_size
    end
  else Some uc_fam.

Definition create_family_from_base (fuel : nat) (base : family)
  : option (gset (gset Z)) :=
  let uc_fam := base in
  create_family_loop fuel base uc_fam (size uc_fam) 0.
End Model.

(** * Notions the claims are stated with *)

(** A family is union-closed when it has the union of any two members. *)
Definition union_closed (F : family) : Prop :=
  ∀ A B, A ∈ F → B ∈ F → A ∪ B ∈ F.

(** [A] is the union of between one and [m] members of [base]. *)
Definition unions_upto (m : nat) (base : family) (A : pyset) : Prop :=
  ∃ l : list (gset Z),
    l ≠ [] ∧ length l ≤ m ∧ (∀ b, b ∈ l → b ∈ base) ∧ A = ⋃ l.

Definition generated (base : family) (A : pyset) : Prop :=
  ∃ m, unions_upto m base A.

(** What the inner loops of [get_surmise] keep for the element [q] once
    the members [seen] have been visited: sets among [seen] that contain
    [q], none a subset of another, and below every such set one of them. *)
Definition retained (q : Z) (seen : list (gset Z)) (S : family) : Prop :=
  (∀ A, A ∈ S → A ∈ seen ∧ q ∈ A)
  ∧ (∀ A A', A ∈ S → A' ∈ S → A ⊆ A' → A = A')
  ∧ (∀ B, B ∈ seen → q ∈ B → ∃ A, A ∈ S ∧ A ⊆ B).

(** The (element, minimal set) associations of a surmise system, the
    sets that occur in it, and the property that none occurs at two
    elements. *)
Definition surmise_assocs (m : gmap Z (gset (gset Z))) : gset (Z * gset Z) :=
  list_to_set (elements (dom m) ≫= λ q, pair q <$> elements (m !!! q)).

Definition surmise_atoms (m : gmap Z (gset (gset Z))) : family :=
  list_to_set (elements (dom m) ≫= λ q, elements (m !!! q)).

Definition atoms_unshared (m : gmap Z (gset (gset Z))) : Prop :=
  ∀ q1 q2 S1 S2 A,
    m !! q1 = Some S1 → m !! q2 = Some S2 → A ∈ S1 → A ∈ S2 → q1 = q2.

(** The name of the projection by [b] with the elements of [b] in
    ascending order. *)
Definition sorted_proj_str (b : pyset) : string :=
  "F" +:+ backslash +:+ "{"
    +:+ join "," (pretty <$> merge_sort Z.le (elements b)) +:+ "}".

(** A visiting order for sets of integers that is not ascending: by
    residue modulo 8, as in a hash table of eight slots indexed by the low
    bits of the integer. *)
Definition slot_le (x y : Z) : Prop :=
  (x `mod` 8 < y `mod` 8 ∨ (x `mod` 8 = y `mod` 8 ∧ x ≤ y))%Z.

#[global] Instance slot_le_dec (x y : Z) : Decision (slot_le x y).
Proof. unfold slot_le. apply _. Defined.

Definition slot_order (s : pyset) : list Z := merge_sort slot_le (elements s).

(** Families used to run the model. *)
Definition ex_base : family := ({[ {[1]}; {[2]} ]})%Z.

Definition ex_family : family := ({[ {[1; 2]}; {[2; 3]}; {[1; 3]} ]})%Z.

Definition ex_chain : family := ({[ {[1]}; {[1; 2]}; {[1; 2; 3]} ]})%Z.

Definition ex_slots : pyset := ({[ 4; 5; 6; 10 ]})%Z.

Definition ex_closure : family := ({[ {[1]}; {[2]}; {[1; 2]} ]})%Z.

(** Another visiting order for families: the reverse of [elements]. *)
Definition reverse_order (F : family) : list (gset Z) :=
  reverse (elements F).

(** * The other functions of the module *)

(** A Python dict keeps its keys in the order they were first set;
    [d[k] = v] on a present key replaces the value where it stands. *)
Fixpoint dict_set `{EqDecision K} {V : Type} (k : K) (v : V)
    (d : list (K * V)) : list (K * V) :=
  match d with
  | [] => [(k, v)]
  | (k', v') :: d' =>
      if decide (k = k') then (k, v) :: d' else (k', v') :: dict_set k v d'
  end.

(** The inner loop of [get_minimal_sets] at index [i]: the value of
    [is_minimal] when it ends. *)
Definition is_minimal_at (sets : list (gset Z)) (i : nat) : bool :=
  default true
    (for_return (seq 0 (length sets)) (λ j,
       if bool_decide (i ≠ j) && bool_decide (sets !!! j ⊂ sets !!! i)
       then Some false else None)).

(** [sets] is a sequence here: it is indexed, and may repeat a set. *)
Definition get_minimal_sets (sets : list (gset Z)) : list (gset Z) :=
  let num_sets := length sets in
  let minimal_sets :=
    foldl (λ minimal_sets i,
             if is_minimal_at sets i
             then dict_set (sets !!! i) (sets !!! i) minimal_sets
             else minimal_sets)
          [] (seq 0 num_sets) in
  minimal_sets.*2.

(** [l.sort(key=key)]: Python's sort is stable, members with equal keys
    keep the order they had. *)
Fixpoint insert_by {A : Type} (key : A → nat) (x : A) (l : list A)
  : list A :=
  match l with
  | [] => [x]
  | y :: l' =>
      if decide (key x ≤ key y) then x :: y :: l'
      else y :: insert_by key x l'
  end.

Definition sort_by {A : Type} (key : A → nat) (l : list A) : list A :=
  foldr (insert_by key) [] l.

Definition newline : string := String "010"%char EmptyString.

Section Model_rest.
Variable iterZ : pyset → list Z.
Variable iterF : family → list (gset Z).

Definition is_union_closed (sets : family) : bool :=
  default true
    (for_return (iterF sets) (λ A,
       for_return (iterF (sets ∖ {[A]})) (λ B,
         if bool_decide (A ∪ B ∉ sets) then Some false else None))).

Definition is_intersection_closed (sets : family) : bool :=
  default true
    (for_return (iterF sets) (λ A,
       for_return (iterF (sets ∖ {[A]})) (λ B,
         if bool_decide (A ∩ B ∉ sets) then Some false else None))).

Definition get_base (sets : family) : family :=
  let surmise := get_surmise iterZ iterF sets in
  foldl (λ base q,
           foldl (λ base curr_set, base ∪ {[curr_set]}) base
                 (iterF (surmise !!! q)))
        ∅ (iterZ (dom surmise)).

(** [count_dict[b] += 1] raises [KeyError] on a key that is not there:
    [None] stands for that exception. *)
Definition count_elements (uc_fam : family) (X : pyset)
  : option (gmap Z nat) :=
  let count_dict := foldl (λ d b, <[b := 0]> d) ∅ (iterZ X) in
  foldl (λ count_dict a,
           foldl (λ count_dict b,
                    d ← count_dict;
                    if bool_decide (b ∈ a)
                    then n ← d !! b; Some (<[b := S n]> d)
                    else Some d)
                 count_dict (iterZ X))
        (Some count_dict) (iterF uc_fam).

(** The strings passed to [f.write], in order. *)
Definition write_family_to_file (uc_fam : family) : list string :=
  let fam_list := sort_by size (iterF uc_fam) in
  (λ i, join "," (pretty <$> merge_sort Z.le (iterZ i)) +:+ newline)
    <$> fam_list.
End Model_rest.

(** [A] has no member of [sets] strictly inside it. *)
Definition minimal_in (sets : list (gset Z)) (A : pyset) : Prop :=
  ∀ B, B ∈ sets → ¬ B ⊂ A.

#[global] Instance minimal_in_dec (sets : list (gset Z)) (A : pyset) :
  Decision (minimal_in sets A).
Proof.
  refine (cast_if (decide (Forall (λ B, ¬ B ⊂ A) sets)));
    unfold minimal_in; by rewrite <- Forall_forall.
Defined.

(** The members of [l] that satisfy [P], each once, in the order of
    their first occurrence, put after [acc]. *)
Definition firsts_where {A : Type} `{EqDecision A} (P : A → Prop)
    `{∀ x, Decision (P x)} (acc l : list A) : list A :=
  foldl (λ ks x,
           if decide (P x)
           then (if decide (x ∈ ks) then ks else ks ++ [x])
           else ks)
        acc l.

(** The line of a set in the file: its elements in ascending order. *)
Definition sorted_line (A : pyset) : string :=
  join "," (pretty <$> merge_sort Z.le (elements A)) +:+ newline.

(** A string without a comma. *)
Fixpoint comma_free (s : string) : Prop :=
  match s with
  | EmptyString => True
  | String c s' => c ≠ ","%char ∧ comma_free s'
  end.

(** The unions of one or more of the sets of a list, with repetitions. *)
Fixpoint nonempty_unions (l : list (gset Z)) : list (gset Z) :=
  match l with
  | [] => []
  | b :: l' =>
      b :: nonempty_unions l' ++ ((λ A, b ∪ A) <$> nonempty_unions l')
  end.

(** * Correctness *)

(** ** Loops with an early return *)

Lemma for_return_None {A R} (l : list A) (body : A → option R) :
  for_return l body = None ↔ ∀ x, x ∈ l → body x = None.
Proof.
  induction l as [|x l IH]; simpl.
  - split; [|done]. by intros _ ? ?%elem_of_nil.
  - destruct (body x) as [r|] eqn:Hx.
    + split; [done|]. intros Hall.
      specialize (Hall x ltac:(left)). congruence.
    + rewrite IH. split.
      * intros Hall y [->|?]%elem_of_cons; auto.
      * intros Hall y ?. apply Hall. by right.
Qed.

Lemma for_return_Some {A R} (l : list A) (body : A → option R) (r : R) :
  for_return l body = Some r →
  ∃ l1 x l2, l = l1 ++ x :: l2
             ∧ (∀ y, y ∈ l1 → body y = None)
             ∧ body x = Some r.
Proof.
  induction l as [|x l IH]; simpl; [done|].
  destruct (body x) as [r'|] eqn:Hx.
  - intros [= ->]. exists [], x, l. split; [done|].
    split; [|done]. by intros ? ?%elem_of_nil.
  - intros (l1 & y & l2 & -> & Hl1 & Hy)%IH. exists (x :: l1), y, l2.
    split; [done|]. split; [|done].
    intros z [->|?]%elem_of_cons; auto.
Qed.

Lemma for_visited_all {A R} (l : list A) (body : A → option R) :
  (∀ x, x ∈ l → body x = None) → for_visited l body = l.
Proof.
  induction l as [|x l IH]; simpl; [done|]. intros Hall.
  rewrite (Hall x) by left. f_equal. apply IH. intros y ?. apply Hall.
  by right.
Qed.

Lemma for_visited_stop {A R} (l1 l2 : list A) (x : A)
    (body : A → option R) (r : R) :
  (∀ y, y ∈ l1 → body y = None) → body x = Some r →
  for_visited (l1 ++ x :: l2) body = l1 ++ [x].
Proof.
  intros Hall Hx. induction l1 as [|y l1 IH]; simpl.
  - by rewrite Hx.
  - rewrite (Hall y) by left. f_equal. apply IH. intros z ?. apply Hall.
    by right.
Qed.

(** ** Loops that only add to a set *)

Lemma foldl_add_singleton {A} `{Countable B} (f : A → B) (l : list A)
    (acc : gset B) :
  foldl (λ acc x, acc ∪ {[f x]}) acc l = acc ∪ list_to_set (f <$> l).
Proof.
  revert acc. induction l as [|x l IH]; intros acc; simpl.
  - set_solver.
  - rewrite IH. set_solver.
Qed.

Lemma size_list_to_set_le `{Countable B} (l : list B) :
  size (list_to_set l : gset B) ≤ length l.
Proof.
  induction l as [|x l IH].
  - apply Nat.eq_le_incl, (size_empty (C:=gset B)).
  - simpl. rewrite size_union_alt, size_singleton.
    pose proof (subseteq_size (list_to_set l ∖ {[x]} : gset B)
                  (list_to_set l)) as Hle.
    specialize (Hle ltac:(set_solver)). lia.
Qed.

(** ** Unions of members of a base *)

Lemma unions_upto_mono (m m' : nat) (base : family) (A : pyset) :
  m ≤ m' → unions_upto m base A → unions_upto m' base A.
Proof.
  intros Hle (l & ? & ? & ? & ->). exists l. repeat split; [done|lia|done].
Qed.

Lemma unions_upto_base (base : family) (b : pyset) :
  b ∈ base → unions_upto 1 base b.
Proof.
  intros Hb. exists [b]. repeat split; [done|simpl; lia| |].
  - by intros ? ->%list_elem_of_singleton.
  - simpl. set_solver.
Qed.

Lemma unions_upto_1 (base : family) (A : pyset) :
  unions_upto 1 base A → A ∈ base.
Proof.
  intros ([|b [|? ?]] & Hne & Hlen & Hin & ->); simpl in *; [done| |lia].
  rewrite (right_id_L ∅ (∪)). apply Hin. left.
Qed.

Lemma unions_upto_union (m : nat) (base : family) (a b : pyset) :
  unions_upto m base a → b ∈ base → unions_upto (S m) base (a ∪ b).
Proof.
  intros (l & ? & ? & Hin & ->) Hb. exists (b :: l).
  repeat split; [done|simpl; lia| |].
  - intros ? [->|?]%elem_of_cons; auto.
  - simpl. set_solver.
Qed.

Lemma unions_upto_S_inv (m : nat) (base : family) (A : pyset) :
  unions_upto (S (S m)) base A →
  unions_upto (S m) base A
  ∨ ∃ a b, unions_upto (S m) base a ∧ b ∈ base ∧ A = a ∪ b.
Proof.
  intros ([|b l] & Hne & Hlen & Hin & ->); [done|].
  destruct l as [|c l].
  - left. exists [b]. repeat split; [done|simpl; lia|done].
  - right. exists (⋃ (c :: l)), b. split; [|split].
    + exists (c :: l). repeat split; [done|simpl in *; lia|].
      intros ??. apply Hin. by right.
    + apply Hin. left.
    + simpl. set_solver.
Qed.

Lemma generated_union (base : family) (A B : pyset) :
  generated base A → generated base B → generated base (A ∪ B).
Proof.
  intros (m1 & l1 & ? & _ & Hin1 & ->) (m2 & l2 & ? & _ & Hin2 & ->).
  exists (length (l1 ++ l2)), (l1 ++ l2). repeat split.
  - by destruct l1.
  - done.
  - intros b [?|?]%elem_of_app; auto.
  - by rewrite union_list_app_L.
Qed.

Lemma generated_least (base G : family) (A : pyset) :
  base ⊆ G → union_closed G → generated base A → A ∈ G.
Proof.
  intros Hbase Hclosed (m & l & Hne & _ & Hin & ->).
  induction l as [|b [|c l] IH]; [done| |].
  - simpl. rewrite (right_id_L ∅ (∪)). apply Hbase, Hin. left.
  - change (⋃ (b :: c :: l)) with (b ∪ ⋃ (c :: l)). apply Hclosed.
    + apply Hbase, Hin. left.
    + apply IH; [done|]. intros ??. apply Hin. by right.
Qed.

(** A union of members of [base] needs each member at most once. *)
Lemma generated_bounded (base : family) (A : pyset) :
  generated base A → unions_upto (size base) base A.
Proof.
  intros (m & l & Hne & _ & Hin & ->). exists (remove_dups l).
  repeat split.
  - destruct l as [|b l]; [done|]. intros Hnil.
    assert (b ∈ remove_dups (b :: l)) as Hb
      by (apply elem_of_remove_dups; left).
    rewrite Hnil in Hb. by apply elem_of_nil in Hb.
  - rewrite <- (size_list_to_set (C:=gset (gset Z)) (remove_dups l))
      by apply NoDup_remove_dups.
    apply subseteq_size. intros b.
    rewrite elem_of_list_to_set, elem_of_remove_dups. apply Hin.
  - intros b. rewrite elem_of_remove_dups. apply Hin.
  - apply set_eq. intros x. rewrite !elem_of_union_list.
    by setoid_rewrite elem_of_remove_dups.
Qed.

Lemma generated_base (base : family) (b : pyset) :
  b ∈ base → generated base b.
Proof. intros ?. exists 1. by apply unions_upto_base. Qed.

(** A family that has the base and every union of a member with a set of
    the base has every union of sets of the base. *)
Lemma generated_absorbed (base uc_fam : family) (A : pyset) :
  base ⊆ uc_fam →
  (∀ a b, a ∈ uc_fam → b ∈ base → a ∪ b ∈ uc_fam) →
  generated base A → A ∈ uc_fam.
Proof.
  intros Hbase Hstep (m & l & Hne & _ & Hin & ->).
  induction l as [|b [|c l] IH]; [done| |].
  - simpl. rewrite (right_id_L ∅ (∪)). apply Hbase, Hin. left.
  - change (⋃ (b :: c :: l)) with (b ∪ ⋃ (c :: l)).
    rewrite (comm_L (∪)). apply Hstep.
    + apply IH; [done|]. intros ??. apply Hin. by right.
    + apply Hin. left.
Qed.

(** ** The test made at a pair of members *)

Lemma X_closed_body_None (sets : family) (X A B : pyset) :
  X_closed_body sets X A B = None ↔ (X ⊂ A ∩ B → A ∩ B ∈ sets).
Proof.
  unfold X_closed_body. repeat case_bool_decide; cbn [andb]; split; try done.
  intros Himp. exfalso. auto.
Qed.

Lemma X_closed_body_Some (sets : family) (X A B : pyset) (r : bool) :
  X_closed_body sets X A B = Some r →
  r = false ∧ X ⊂ A ∩ B ∧ A ∩ B ∉ sets.
Proof.
  unfold X_closed_body. repeat case_bool_decide; cbn [andb]; try done.
  by intros [= <-].
Qed.

(** ** Scanning the retained sets *)

(** On sets none of which is strictly below another, the scan either
    meets a set strictly below [curr_set] and leaves the family as it was,
    or drops exactly the sets strictly above [curr_set]. *)
Lemma surmise_scan_spec (curr_set : pyset) (copy : list (gset Z))
    (q_surmise : family) :
  (∀ s s', s ∈ copy → s' ∈ copy → ¬ s ⊂ s') →
  (∃ s, s ∈ copy ∧ s ⊂ curr_set
        ∧ surmise_scan curr_set copy q_surmise = (q_surmise, false))
  ∨ ((∀ s, s ∈ copy → ¬ s ⊂ curr_set)
     ∧ ∃ T, surmise_scan curr_set copy q_surmise = (T, true)
            ∧ ∀ A, A ∈ T ↔ A ∈ q_surmise ∧ ¬ (A ∈ copy ∧ curr_set ⊂ A)).
Proof.
  revert q_surmise. induction copy as [|s' copy IH]; intros T Hanti.
  - right. split; [by intros ? ?%elem_of_nil|]. exists T. split; [done|].
    intros A. split; [|by intros [? _]].
    intros ?. split; [done|]. by intros [?%elem_of_nil _].
  - assert (∀ s s0, s ∈ copy → s0 ∈ copy → ¬ s ⊂ s0) as Hanti'
      by (intros s s0 ??; apply Hanti; by right).
    cbn [surmise_scan]. case_bool_decide as Hc; [|case_bool_decide as Hs].
    + destruct (IH (T ∖ {[s']}) Hanti')
        as [(s & Hin & Hsc & _)|(Hall & T' & Hrun & HT')].
      * exfalso. apply (Hanti s s'); [by right|left|]. by etrans.
      * right. split.
        { intros s [->|?]%elem_of_cons; [|auto].
          intros [? _]. by destruct Hc as [_ []]. }
        exists T'. split; [done|]. intros A.
        rewrite HT', elem_of_difference, elem_of_singleton, elem_of_cons.
        clear -Hc. naive_solver.
    + left. exists s'. split; [left|]. done.
    + destruct (IH T Hanti')
        as [(s & Hin & Hsc & Hrun)|(Hall & T' & Hrun & HT')].
      * left. exists s. split; [by right|]. done.
      * right. split.
        { intros s [->|?]%elem_of_cons; auto. }
        exists T'. split; [done|]. intros A. rewrite HT', elem_of_cons.
        clear -Hc. naive_solver.
Qed.

Lemma retained_minimal (q : Z) (seen : list (gset Z)) (S : family)
    (A : pyset) :
  retained q seen S →
  A ∈ S ↔ A ∈ seen ∧ q ∈ A ∧ ∀ B, B ∈ seen → q ∈ B → ¬ B ⊂ A.
Proof.
  intros (Hin & Hanti & Hbelow). split.
  - intros HA. destruct (Hin A HA) as [? ?]. split; [done|]. split; [done|].
    intros B HB Hq HBA. destruct (Hbelow B HB Hq) as (A' & HA' & Hsub).
    assert (A' = A) as ->.
    { apply Hanti; [done|done|]. etrans; [done|]. by apply strict_include. }
    destruct HBA as [_ []]. done.
  - intros (Hseen & Hq & Hmin).
    destruct (Hbelow A Hseen Hq) as (A' & HA' & Hsub).
    destruct (decide (A ⊆ A')) as [Hsup|Hsup].
    + by assert (A = A') as -> by (by apply (anti_symm (⊆))).
    + destruct (Hin A' HA') as [? ?]. by destruct (Hmin A').
Qed.

(** ** Loops that fill a set or a dict *)

Lemma elem_of_foldl_union (l : list (gset Z)) (acc : pyset) (x : Z) :
  x ∈ foldl (λ universe curr_set, universe ∪ curr_set) acc l
  ↔ x ∈ acc ∨ ∃ A, A ∈ l ∧ x ∈ A.
Proof.
  revert acc. induction l as [|B l IH]; intros acc; cbn [foldl].
  - split; [auto|]. by intros [?|(? & ?%elem_of_nil & _)].
  - rewrite IH, elem_of_union. setoid_rewrite elem_of_cons. naive_solver.
Qed.

Lemma lookup_foldl_insert {V} (g : Z → V) (l : list Z) (m : gmap Z V)
    (q : Z) :
  foldl (λ d k, <[k := g k]> d) m l !! q
  = if decide (q ∈ l) then Some (g q) else m !! q.
Proof.
  revert m. induction l as [|k l IH]; intros m; cbn [foldl].
  - by rewrite decide_False by apply not_elem_of_nil.
  - rewrite IH. destruct (decide (q ∈ l)) as [Hin|Hin].
    + by rewrite decide_True by (by right).
    + destruct (decide (q = k)) as [->|Hne].
      * rewrite decide_True by left. apply lookup_insert_eq.
      * rewrite decide_False by (by intros [?|?]%elem_of_cons).
        by apply lookup_insert_ne.
Qed.

(** ** Counting without repetition *)

Lemma NoDup_size_list_to_set `{Countable B} (l : list B) :
  length l = size (list_to_set l : gset B) ↔ NoDup l.
Proof.
  split; [|intros ?; by rewrite size_list_to_set].
  induction l as [|x l IH]; [constructor|].
  cbn [length list_to_set]. rewrite size_union_alt, size_singleton.
  intros Hlen.
  pose proof (size_list_to_set_le l) as Hle.
  pose proof (size_difference_alt (list_to_set l : gset B) {[x]}) as Hdiff.
  constructor.
  - intros Hx.
    assert (list_to_set l ∩ {[x]} = ({[x]} : gset B)) as Hcap.
    { apply set_eq. intros y.
      rewrite elem_of_intersection, elem_of_singleton, elem_of_list_to_set.
      naive_solver. }
    rewrite Hcap, size_singleton in Hdiff.
    assert (size ({[x]} : gset B) ≤ size (list_to_set l : gset B)) as Hpos.
    { apply subseteq_size. intros y ->%elem_of_singleton.
      by apply elem_of_list_to_set. }
    rewrite size_singleton in Hpos. lia.
  - apply IH. lia.
Qed.

Lemma NoDup_bind_inv {A B} (g : A → list B) (l : list A) (x1 x2 : A)
    (y : B) :
  NoDup l → NoDup (l ≫= g) →
  x1 ∈ l → x2 ∈ l → y ∈ g x1 → y ∈ g x2 → x1 = x2.
Proof.
  induction 1 as [|x l Hx Hl IH]; [by intros _ ?%elem_of_nil|].
  rewrite bind_cons. intros (_ & Hdisj & Hrest)%NoDup_app.
  intros [->|H1]%elem_of_cons [->|H2]%elem_of_cons Hy1 Hy2; [done| | |auto].
  - destruct (Hdisj y Hy1). apply list_elem_of_bind. eauto.
  - destruct (Hdisj y Hy2). apply list_elem_of_bind. eauto.
Qed.

Lemma length_bind_ext {A B C} (g : A → list B) (g' : A → list C)
    (l : list A) :
  (∀ x, length (g x) = length (g' x)) →
  length (l ≫= g) = length (l ≫= g').
Proof.
  intros Hlen. induction l as [|x l IH]; [done|].
  by rewrite !bind_cons, !length_app, Hlen, IH.
Qed.

Lemma length_bind_perm {A B C} (g : A → list B) (g' : A → list C)
    (l l' : list A) :
  l ≡ₚ l' → (∀ x, length (g x) = length (g' x)) →
  length (l ≫= g) = length (l' ≫= g').
Proof.
  intros Hperm Hlen. rewrite <- (length_bind_ext g g' l') by done.
  clear Hlen. induction Hperm as [|x l l' _ IH|x y l|l l' l'' _ IH1 _ IH2].
  - done.
  - by rewrite !bind_cons, !length_app, IH.
  - rewrite !bind_cons, !length_app. lia.
  - by etrans.
Qed.

(** ** What the counted sets are *)

Lemma elem_of_surmise_assocs (m : gmap Z (gset (gset Z))) (q : Z)
    (A : pyset) :
  (q, A) ∈ surmise_assocs m ↔ ∃ S, m !! q = Some S ∧ A ∈ S.
Proof.
  unfold surmise_assocs. rewrite elem_of_list_to_set, list_elem_of_bind.
  split.
  - intros (q' & (A' & [= <- <-] & HA%elem_of_elements)%list_elem_of_fmap
              & [S Hq]%elem_of_elements%elem_of_dom).
    exists S. by rewrite (lookup_total_correct _ _ _ Hq) in HA.
  - intros (S & Hq & HA). exists q. split.
    + apply list_elem_of_fmap. exists A. split; [done|].
      apply elem_of_elements. by rewrite (lookup_total_correct _ _ _ Hq).
    + apply elem_of_elements, elem_of_dom. eauto.
Qed.

Lemma elem_of_surmise_atoms (m : gmap Z (gset (gset Z))) (A : pyset) :
  A ∈ surmise_atoms m ↔ ∃ q S, m !! q = Some S ∧ A ∈ S.
Proof.
  unfold surmise_atoms. rewrite elem_of_list_to_set, list_elem_of_bind.
  split.
  - intros (q & HA%elem_of_elements & [S Hq]%elem_of_elements%elem_of_dom).
    exists q, S. by rewrite (lookup_total_correct _ _ _ Hq) in HA.
  - intros (q & S & Hq & HA). exists q. split.
    + apply elem_of_elements. by rewrite (lookup_total_correct _ _ _ Hq).
    + apply elem_of_elements, elem_of_dom. eauto.
Qed.

Section Correctness.
Context (iterZ : gset Z → list Z) (iterF : gset (gset Z) → list (gset Z)).
Hypothesis iterZ_perm : ∀ s, iterZ s ≡ₚ elements s.
Hypothesis iterF_perm : ∀ F, iterF F ≡ₚ elements F.

(** ** The visiting orders list the members, once each *)

Lemma elem_of_iterF (F : family) A : A ∈ iterF F ↔ A ∈ F.
Proof. by rewrite iterF_perm, elem_of_elements. Qed.

Lemma NoDup_iterF (F : family) : NoDup (iterF F).
Proof. rewrite iterF_perm. apply NoDup_elements. Qed.

Lemma length_iterF (F : family) : length (iterF F) = size F.
Proof. by rewrite iterF_perm. Qed.

Lemma iterF_empty : iterF ∅ = [].
Proof.
  apply Permutation_nil_r. by rewrite iterF_perm, elements_empty.
Qed.

Lemma elem_of_iterZ (s : pyset) x : x ∈ iterZ s ↔ x ∈ s.
Proof. by rewrite iterZ_perm, elem_of_elements. Qed.

Lemma NoDup_iterZ (s : pyset) : NoDup (iterZ s).
Proof. rewrite iterZ_perm. apply NoDup_elements. Qed.

(** ** Projection *)

Lemma project_family_list (sets : family) (X : pyset) :
  project_family iterF sets X = list_to_set ((λ A, A ∖ X) <$> iterF sets).
Proof using iterF_perm.
  clear iterZ iterZ_perm.
  unfold project_family. rewrite foldl_add_singleton. set_solver.
Qed.

Lemma elem_of_project_family (sets : family) (X B : pyset) :
  B ∈ project_family iterF sets X ↔ ∃ A, A ∈ sets ∧ B = A ∖ X.
Proof using iterF_perm.
  rewrite project_family_list, elem_of_list_to_set, list_elem_of_fmap.
  split; intros (A & ? & ?); exists A.
  - by rewrite <- elem_of_iterF.
  - by rewrite elem_of_iterF.
Qed.

(** C7: a projection has at most as many members as the family, and
    projecting a second time by the same set changes nothing. *)
Theorem project_family_size_idem (sets : family) (X : pyset) :
  size (project_family iterF sets X) ≤ size sets
  ∧ project_family iterF (project_family iterF sets X) X
    = project_family iterF sets X.
Proof using iterF_perm.
  clear iterZ iterZ_perm. split.
  - rewrite project_family_list, <- (length_iterF sets).
    etrans; [apply size_list_to_set_le|]. by rewrite length_fmap.
  - apply set_eq. intros B. rewrite !elem_of_project_family. split.
    + intros (A' & (A & HA & ->)%elem_of_project_family & ->).
      exists A. split; [done|]. set_solver.
    + intros (A & HA & ->). exists (A ∖ X). split; [|set_solver].
      apply elem_of_project_family. by exists A.
Qed.

(** C9: no member of a projection by [X] has an element of [X]. *)
Theorem project_family_disjoint (sets : family) (X A : pyset) :
  A ∈ project_family iterF sets X → A ∩ X = ∅.
Proof using iterF_perm.
  clear iterZ iterZ_perm.
  rewrite elem_of_project_family. intros (A' & _ & ->). set_solver.
Qed.

(** ** Closure under union *)

Lemma elem_of_union_pass_list (base : family) (l : list (gset Z))
    (acc : family) (A : pyset) :
  A ∈ foldl (λ uc_fam a,
               foldl (λ uc_fam b, uc_fam ∪ {[a ∪ b]}) uc_fam (iterF base))
            acc l
  ↔ A ∈ acc ∨ ∃ a b, a ∈ l ∧ b ∈ base ∧ A = a ∪ b.
Proof.
  revert acc. induction l as [|a l IH]; intros acc; simpl.
  - split; [auto|]. intros [?|(? & ? & []%elem_of_nil & _)]; done.
  - rewrite IH, (foldl_add_singleton (λ b, a ∪ b)), elem_of_union,
      elem_of_list_to_set, list_elem_of_fmap.
    split.
    + intros [[?|(b & -> & Hb%elem_of_iterF)]|(a' & b & ? & ? & ->)].
      * by left.
      * right. exists a, b. split; [left|]; done.
      * right. exists a', b. split; [by right|]; done.
    + intros [?|(a' & b & [->|?]%elem_of_cons & ? & ->)].
      * by left; left.
      * left; right. exists b. by rewrite elem_of_iterF.
      * right. by exists a', b.
Qed.

Lemma elem_of_union_pass (base uc_fam : family) (A : pyset) :
  A ∈ union_pass iterF base uc_fam
  ↔ A ∈ uc_fam ∨ ∃ a b, a ∈ uc_fam ∧ b ∈ base ∧ A = a ∪ b.
Proof.
  unfold union_pass. rewrite elem_of_union_pass_list.
  by setoid_rewrite elem_of_iterF.
Qed.

Lemma union_pass_subseteq (base uc_fam : family) :
  uc_fam ⊆ union_pass iterF base uc_fam.
Proof. intros A ?. apply elem_of_union_pass. by left. Qed.

Lemma union_pass_generated (base uc_fam : family) :
  (∀ A, A ∈ uc_fam → generated base A) →
  ∀ A, A ∈ union_pass iterF base uc_fam → generated base A.
Proof.
  intros Hgen A [?|(a & b & ? & ? & ->)]%elem_of_union_pass; [auto|].
  apply generated_union; [auto|by apply generated_base].
Qed.

Lemma union_pass_fixed (base uc_fam : family) (A : pyset) :
  base ⊆ uc_fam →
  size (union_pass iterF base uc_fam) ≤ size uc_fam →
  generated base A → A ∈ union_pass iterF base uc_fam.
Proof.
  intros Hbase Hsize.
  assert (uc_fam = union_pass iterF base uc_fam) as Heq
    by (apply set_subseteq_size_eq; [apply union_pass_subseteq|done]).
  rewrite <- Heq. apply generated_absorbed; [done|].
  intros a b ??. rewrite Heq.
  apply elem_of_union_pass. right. by exists a, b.
Qed.

Lemma create_family_loop_unfold (fuel : nat) (base uc_fam : family)
    (curr_size prev_size : nat) :
  create_family_loop iterF fuel base uc_fam curr_size prev_size
  = if bool_decide (prev_size < curr_size) then
      match fuel with
      | O => None
      | S fuel' =>
          create_family_loop iterF fuel' base
            (union_pass iterF base uc_fam)
            (size (union_pass iterF base uc_fam)) curr_size
      end
    else Some uc_fam.
Proof. by destruct fuel. Qed.

Lemma create_family_loop_mono (fuel fuel' : nat) (base uc_fam : family)
    (curr_size prev_size : nat) (F : family) :
  fuel ≤ fuel' →
  create_family_loop iterF fuel base uc_fam curr_size prev_size = Some F →
  create_family_loop iterF fuel' base uc_fam curr_size prev_size = Some F.
Proof.
  revert fuel' uc_fam curr_size prev_size.
  induction fuel as [|fuel IH];
    intros fuel' uc_fam curr_size prev_size Hle Hrun;
    rewrite create_family_loop_unfold in Hrun;
    rewrite create_family_loop_unfold; case_bool_decide; try done.
  destruct fuel' as [|fuel']; [lia|]. apply IH; [lia|done].
Qed.

(** The loop after [k] rounds: the family has every union of at most
    [k + 1] sets of the base, and only unions of sets of the base. *)
Lemma create_family_loop_spec (fuel k : nat) (base uc_fam : family)
    (prev_size : nat) :
  base ⊆ uc_fam →
  (∀ A, A ∈ uc_fam → generated base A) →
  (∀ A, unions_upto (S k) base A → A ∈ uc_fam) →
  (size uc_fam ≤ prev_size → ∀ A, generated base A → A ∈ uc_fam) →
  (size base ≤ k → size uc_fam ≤ prev_size) →
  size base ≤ fuel + k →
  ∃ F, create_family_loop iterF fuel base uc_fam (size uc_fam) prev_size
       = Some F
       ∧ ∀ A, A ∈ F ↔ generated base A.
Proof.
  revert k uc_fam prev_size.
  induction fuel as [|fuel IH];
    intros k uc_fam prev_size Hbase Hgen Hlevel Hstop Hlast Hfuel;
    rewrite create_family_loop_unfold; case_bool_decide as Hcond.
  - simpl in Hfuel. specialize (Hlast Hfuel). lia.
  - exists uc_fam. split; [done|]. intros A. split; [auto|].
    apply Hstop. lia.
  - apply (IH (S k)).
    + etrans; [done|apply union_pass_subseteq].
    + by apply union_pass_generated.
    + intros A [?|(a & b & ? & ? & ->)]%unions_upto_S_inv;
        apply elem_of_union_pass; [left; auto|].
      right. exists a, b. auto.
    + intros ? A. by apply union_pass_fixed.
    + intros Hk. apply subseteq_size. intros A HA. apply Hlevel.
      apply (unions_upto_mono (size base)); [done|].
      apply generated_bounded. by apply (union_pass_generated base uc_fam).
    + lia.
  - exists uc_fam. split; [done|]. intros A. split; [auto|].
    apply Hstop. lia.
Qed.

Lemma create_family_from_base_spec (base : family) :
  ∃ F, create_family_from_base iterF (size base) base = Some F
       ∧ ∀ A, A ∈ F ↔ generated base A.
Proof.
  unfold create_family_from_base. apply (create_family_loop_spec _ 0).
  - done.
  - intros A ?. by apply generated_base.
  - intros A ?. by apply unions_upto_1.
  - intros Hsize A HA. apply generated_bounded in HA.
    destruct HA as (l & Hne & Hlen & _). destruct l; [done|].
    simpl in Hlen. lia.
  - lia.
  - lia.
Qed.

(** C1: given at least [size base] rounds of fuel, the closure loop
    returns a family, the same for any amount of fuel that suffices; the
    family has the base, is union-closed, and lies within every
    union-closed family that has the base. *)
Theorem create_family_from_base_closure (base : family) :
  ∃ F,
    (∀ fuel, size base ≤ fuel →
             create_family_from_base iterF fuel base = Some F)
    ∧ (∀ fuel F', create_family_from_base iterF fuel base = Some F' →
                  F' = F)
    ∧ base ⊆ F
    ∧ union_closed F
    ∧ (∀ G, base ⊆ G → union_closed G → F ⊆ G).
Proof.
  destruct (create_family_from_base_spec base) as (F & Hrun & HF).
  assert (∀ fuel, size base ≤ fuel →
            create_family_from_base iterF fuel base = Some F) as Hmono.
  { intros fuel Hle. by apply (create_family_loop_mono (size base)). }
  exists F. split; [done|]. split; [|split; [|split]].
  - intros fuel F' Hrun'.
    apply (create_family_loop_mono _ (fuel + size base)) in Hrun'; [|lia].
    unfold create_family_from_base in Hmono.
    rewrite Hmono in Hrun' by lia. congruence.
  - intros b ?. by apply HF, generated_base.
  - intros A B ?%HF ?%HF. by apply HF, generated_union.
  - intros G ?? A ?%HF. by apply (generated_least base).
Qed.

Lemma union_pass_closed (F : family) :
  union_closed F → union_pass iterF F F = F.
Proof.
  intros Hclosed. apply set_eq. intros A. rewrite elem_of_union_pass.
  split; [|by left]. intros [?|(a & b & ? & ? & ->)]; auto.
Qed.

Lemma create_family_from_base_closed (fuel : nat) (F : family) :
  union_closed F → 1 ≤ fuel →
  create_family_from_base iterF fuel F = Some F.
Proof.
  intros Hclosed Hfuel. unfold create_family_from_base.
  rewrite create_family_loop_unfold. case_bool_decide; [|done].
  destruct fuel as [|fuel]; [lia|].
  rewrite union_pass_closed by done.
  rewrite create_family_loop_unfold, bool_decide_false by lia. done.
Qed.

(** C6: closing a closure gives the closure back: with enough fuel the
    loop returns a family on the base, and run again on that family
    (one round suffices) it returns the same family. *)
Theorem create_family_from_base_idempotent (base : family)
    (fuel fuel' : nat) :
  size base ≤ fuel → 1 ≤ fuel' →
  ∃ F, create_family_from_base iterF fuel base = Some F
       ∧ create_family_from_base iterF fuel' F = Some F.
Proof.
  intros Hfuel Hfuel'.
  destruct (create_family_from_base_spec base) as (F & Hrun & HF).
  exists F. split.
  - by apply (create_family_loop_mono (size base)).
  - apply create_family_from_base_closed; [|done].
    intros A B ?%HF ?%HF. by apply HF, generated_union.
Qed.

(** ** X-closedness *)

(** C5: [is_X_closed] answers [True] exactly when every intersection of
    two distinct members that strictly contains [X] is a member; when it
    answers [False], the pairs it has tested end with a pair of distinct
    members that breaks this, and no pair tested before does. *)
Theorem is_X_closed_correct (sets : family) (X : pyset) :
  (is_X_closed iterF sets X = true
   ↔ ∀ A B, A ∈ sets → B ∈ sets → A ≠ B → X ⊂ A ∩ B → A ∩ B ∈ sets)
  ∧ (is_X_closed iterF sets X = false →
     ∃ l A B,
       is_X_closed_visited iterF sets X = l ++ [(A, B)]
       ∧ A ∈ sets ∧ B ∈ sets ∧ A ≠ B
       ∧ X ⊂ A ∩ B ∧ (A ∩ B ∉ sets)
       ∧ ∀ A' B', (A', B') ∈ l → X ⊂ A' ∩ B' → A' ∩ B' ∈ sets).
Proof.
  unfold is_X_closed, is_X_closed_visited.
  destruct (for_return (iterF sets) _) as [r|] eqn:Hrun;
    cbn [default from_option id].
  - apply for_return_Some in Hrun
      as (l1 & A & l2 & Hsets & Hl1 & Hinner).
    pose proof Hinner
      as (m1 & B & m2 & Hrest & Hm1 & Hbody)%for_return_Some.
    pose proof Hbody as (-> & Hsub & Hnotin)%X_closed_body_Some.
    assert (A ∈ sets) as HA.
    { apply elem_of_iterF. rewrite Hsets, elem_of_app. right. left. }
    assert (B ∈ sets ∧ A ≠ B) as [HB HAB].
    { assert (B ∈ sets ∖ {[A]}) as HB.
      { apply elem_of_iterF. rewrite Hrest, elem_of_app. right. left. }
      apply elem_of_difference in HB as [? HB]. split; [done|].
      intros ->. apply HB. by apply elem_of_singleton. }
    split.
    + split; [done|]. intros Hall. destruct Hnotin. by apply Hall.
    + intros _.
      exists ((l1 ≫= λ A', iterF (sets ∖ {[A']}) ≫= λ B', [(A', B')])
              ++ (m1 ≫= λ B', [(A, B')])), A, B.
      split; [|do 5 (split; [done|])].
      * rewrite Hsets.
        rewrite (for_visited_stop l1 l2 A _ false Hl1 Hinner).
        rewrite bind_app, <- (assoc_L (++)). f_equal.
        -- apply Forall_bind_ext, Forall_forall. intros A' HA'.
           rewrite for_visited_all; [done|].
           by apply for_return_None, Hl1.
        -- rewrite bind_singleton, Hrest.
           rewrite (for_visited_stop m1 m2 B _ false Hm1 Hbody).
           by rewrite bind_app.
      * intros A' B' [Hin|Hin]%elem_of_app.
        -- apply list_elem_of_bind in Hin as (A'' & Hin & HA'').
           apply list_elem_of_bind in Hin as (B'' & Hin & HB'').
           apply list_elem_of_singleton in Hin as [= -> ->].
           apply X_closed_body_None.
           by apply (for_return_None (iterF (sets ∖ {[A'']})));
             [apply Hl1|].
        -- apply list_elem_of_bind in Hin as (B'' & Hin & HB'').
           apply list_elem_of_singleton in Hin as [= -> ->].
           apply X_closed_body_None. auto.
  - split; [|done]. split; [|done]. intros _ A B HA HB HAB.
    apply X_closed_body_None.
    pose proof (proj1 (for_return_None _ _) Hrun A) as Hinner.
    apply (proj1 (for_return_None _ _)
             (Hinner (proj2 (elem_of_iterF _ _) HA))).
    apply elem_of_iterF, elem_of_difference. split; [done|].
    by intros ->%elem_of_singleton.
Qed.

(** ** Surmise system *)

Lemma surmise_step_retained (q : Z) (seen : list (gset Z)) (S : family)
    (curr_set : pyset) :
  retained q seen S →
  retained q (seen ++ [curr_set]) (surmise_step iterF q S curr_set).
Proof.
  intros (Hin & Hanti & Hbelow). unfold surmise_step.
  case_bool_decide as Hq; [case_bool_decide as Hsize|].
  - destruct (surmise_scan_spec curr_set (iterF S) S)
      as [(s & Hs & Hsc & ->)|(Hall & T & -> & HT)].
    { intros s s' Hs%elem_of_iterF Hs'%elem_of_iterF Hlt.
      apply (strict_ne _ _ Hlt), Hanti; [done|done|].
      by apply strict_include. }
    + apply elem_of_iterF in Hs. split; [|split; [done|]].
      * intros A HA. destruct (Hin A HA). split; [|done].
        apply elem_of_app. by left.
      * intros B [HB| ->%list_elem_of_singleton]%elem_of_app HqB; [auto|].
        exists s. split; [done|]. by apply strict_include.
    + split; [|split].
      * intros A [[HA _]%HT| ->%elem_of_singleton]%elem_of_union.
        -- destruct (Hin A HA). split; [|done]. apply elem_of_app.
           by left.
        -- split; [|done]. apply elem_of_app. right. left.
      * intros A A'
          [[HA HAc]%HT| ->%elem_of_singleton]%elem_of_union
          [[HA' HAc']%HT| ->%elem_of_singleton]%elem_of_union
          Hsub; [by apply Hanti| | |done].
        -- destruct (decide (curr_set ⊆ A)); [by apply (anti_symm (⊆))|].
           destruct (Hall A); [by apply elem_of_iterF|done].
        -- destruct (decide (A' ⊆ curr_set)); [by apply (anti_symm (⊆))|].
           destruct HAc'. split; [by apply elem_of_iterF|done].
      * intros B [HB| ->%list_elem_of_singleton]%elem_of_app HqB.
        -- destruct (Hbelow B HB HqB) as (A & HA & Hsub).
           destruct (decide (curr_set ⊂ A)) as [Hlt|Hlt].
           ++ exists curr_set. split; [apply elem_of_union; right;
                                       by apply elem_of_singleton|].
              etrans; [by apply strict_include|done].
           ++ exists A. split; [|done]. apply elem_of_union. left.
              apply HT. split; [done|]. by intros [_ ?].
        -- exists curr_set. split; [|done]. apply elem_of_union. right.
           by apply elem_of_singleton.
  - assert (S = ∅) as ->.
    { apply leibniz_equiv, size_empty_iff. lia. }
    split; [|split].
    + intros A [[]%not_elem_of_empty| ->%elem_of_singleton]%elem_of_union.
      split; [|done]. apply elem_of_app. right. left.
    + intros A A' HA HA'.
      apply elem_of_union in HA as [[]%not_elem_of_empty|HA].
      apply elem_of_union in HA' as [[]%not_elem_of_empty|HA'].
      apply elem_of_singleton in HA, HA'. by subst.
    + intros B [HB| ->%list_elem_of_singleton]%elem_of_app HqB.
      * destruct (Hbelow B HB HqB) as (A & []%not_elem_of_empty & _).
      * exists curr_set. split; [|done]. apply elem_of_union. right.
        by apply elem_of_singleton.
  - split; [|split; [done|]].
    + intros A HA. destruct (Hin A HA). split; [|done].
      apply elem_of_app. by left.
    + intros B [HB| ->%list_elem_of_singleton]%elem_of_app HqB; [auto|done].
Qed.

Lemma surmise_fold_retained (q : Z) (l : list (gset Z)) :
  retained q l (foldl (surmise_step iterF q) ∅ l).
Proof.
  induction l as [|curr_set l IH] using rev_ind.
  - split; [|split].
    + by intros A ?%not_elem_of_empty.
    + by intros A A' ?%not_elem_of_empty.
    + by intros B ?%elem_of_nil.
  - rewrite foldl_snoc. by apply surmise_step_retained.
Qed.

Lemma elem_of_get_universe (sets : family) (q : Z) :
  q ∈ get_universe iterF sets ↔ ∃ A, A ∈ sets ∧ q ∈ A.
Proof.
  unfold get_universe. rewrite elem_of_foldl_union.
  setoid_rewrite elem_of_iterF. split; [|auto].
  by intros [?%not_elem_of_empty|?].
Qed.

Lemma get_surmise_lookup (sets : family) (q : Z) :
  get_surmise iterZ iterF sets !! q
  = if decide (q ∈ get_universe iterF sets)
    then Some (foldl (surmise_step iterF q) ∅ (iterF sets))
    else None.
Proof.
  unfold get_surmise.
  rewrite (lookup_foldl_insert
             (λ q, foldl (surmise_step iterF q) ∅ (iterF sets))).
  destruct (decide (q ∈ iterZ _)) as [Hin|Hin];
    rewrite elem_of_iterZ in Hin.
  - by rewrite decide_True.
  - by rewrite decide_False.
Qed.

Lemma dom_get_surmise (sets : family) :
  dom (get_surmise iterZ iterF sets) = get_universe iterF sets.
Proof.
  apply set_eq. intros q. rewrite elem_of_dom, get_surmise_lookup.
  destruct (decide (q ∈ get_universe iterF sets)); [by split; eauto|].
  split; [by intros [? ?]|done].
Qed.

(** C2: for an element [q] of some member, [get_surmise] has an entry
    whose sets are exactly the members that contain [q] and have no
    member containing [q] strictly inside them; no set of the entry is
    a subset of another.  This holds for every visiting order. *)
Theorem get_surmise_minimal (sets : family) (q : Z) :
  (∃ A, A ∈ sets ∧ q ∈ A) →
  ∃ S, get_surmise iterZ iterF sets !! q = Some S
       ∧ (∀ A, A ∈ S ↔
               A ∈ sets ∧ q ∈ A ∧ ∀ B, B ∈ sets → q ∈ B → ¬ B ⊂ A)
       ∧ (∀ A B, A ∈ S → B ∈ S → A ⊆ B → A = B).
Proof.
  intros Hq%elem_of_get_universe.
  rewrite get_surmise_lookup, decide_True by done.
  eexists. split; [done|].
  pose proof (surmise_fold_retained q (iterF sets)) as Hret. split.
  - intros A. rewrite (retained_minimal q _ _ A Hret), elem_of_iterF.
    by setoid_rewrite elem_of_iterF.
  - by destruct Hret as (_ & ? & _).
Qed.

(** ** Unique atoms *)

Lemma count_atoms_inner (l : list (gset Z)) (st : gset (gset Z) * nat) :
  foldl (λ '(surmise_sets, surmise_count) curr_set,
           (surmise_sets ∪ {[curr_set]}, S surmise_count)) st l
  = (st.1 ∪ list_to_set l, st.2 + length l).
Proof.
  clear. revert st. induction l as [|A l IH]; intros [ss n]; cbn [foldl].
  - cbn [fst snd length]. f_equal; [set_solver|lia].
  - rewrite IH. cbn [fst snd length]. f_equal; [set_solver|lia].
Qed.

Lemma count_atoms_outer (m : gmap Z (gset (gset Z))) (ks : list Z)
    (st : gset (gset Z) * nat) :
  foldl (λ st q,
           foldl (λ '(surmise_sets, surmise_count) curr_set,
                    (surmise_sets ∪ {[curr_set]}, S surmise_count))
                 st (iterF (m !!! q))) st ks
  = (st.1 ∪ list_to_set (ks ≫= λ q, iterF (m !!! q)),
     st.2 + length (ks ≫= λ q, iterF (m !!! q))).
Proof.
  clear. revert st. induction ks as [|q ks IH]; intros [ss n]; cbn [foldl].
  - cbn [fst snd]. f_equal; [set_solver|cbn; lia].
  - rewrite IH, count_atoms_inner, bind_cons, length_app,
      list_to_set_app_L. cbn [fst snd]. f_equal; [|lia].
    by rewrite (assoc_L (∪)).
Qed.

Lemma count_atoms_spec (m : gmap Z (gset (gset Z))) :
  count_atoms iterZ iterF m
  = (list_to_set (iterZ (dom m) ≫= λ q, iterF (m !!! q)),
     length (iterZ (dom m) ≫= λ q, iterF (m !!! q))).
Proof.
  unfold count_atoms. rewrite count_atoms_outer. cbn [fst snd].
  f_equal. apply (left_id_L ∅ (∪)).
Qed.

Lemma size_surmise_assocs (m : gmap Z (gset (gset Z))) :
  size (surmise_assocs m)
  = length (iterZ (dom m) ≫= λ q, iterF (m !!! q)).
Proof.
  unfold surmise_assocs. rewrite size_list_to_set.
  - symmetry. apply length_bind_perm; [done|]. intros q.
    by rewrite length_fmap, length_iterF.
  - apply NoDup_bind; [| |apply NoDup_elements].
    + intros q1 q2 [q A] _ _ (? & [= -> _] & _)%list_elem_of_fmap
        (? & [= -> _] & _)%list_elem_of_fmap. done.
    + intros q _. apply (NoDup_fmap_2 _). apply NoDup_elements.
Qed.

Lemma surmise_atoms_list (m : gmap Z (gset (gset Z))) :
  surmise_atoms m = list_to_set (iterZ (dom m) ≫= λ q, iterF (m !!! q)).
Proof.
  apply set_eq. intros A. unfold surmise_atoms.
  rewrite !elem_of_list_to_set, !list_elem_of_bind.
  setoid_rewrite elem_of_iterF. setoid_rewrite elem_of_iterZ.
  setoid_rewrite elem_of_elements. done.
Qed.

Lemma atoms_unshared_NoDup (m : gmap Z (gset (gset Z))) :
  NoDup (iterZ (dom m) ≫= λ q, iterF (m !!! q)) ↔ atoms_unshared m.
Proof.
  split.
  - intros Hnd q1 q2 S1 S2 A Hq1 Hq2 HA1 HA2.
    apply (NoDup_bind_inv _ _ q1 q2 A (NoDup_iterZ _) Hnd).
    + apply elem_of_iterZ, elem_of_dom. eauto.
    + apply elem_of_iterZ, elem_of_dom. eauto.
    + apply elem_of_iterF. by rewrite (lookup_total_correct _ _ _ Hq1).
    + apply elem_of_iterF. by rewrite (lookup_total_correct _ _ _ Hq2).
  - intros Hun. apply NoDup_bind; [| |apply NoDup_iterZ].
    + intros q1 q2 A [S1 Hq1]%elem_of_iterZ%elem_of_dom
        [S2 Hq2]%elem_of_iterZ%elem_of_dom HA1%elem_of_iterF
        HA2%elem_of_iterF.
      rewrite (lookup_total_correct _ _ _ Hq1) in HA1.
      rewrite (lookup_total_correct _ _ _ Hq2) in HA2.
      by apply (Hun q1 q2 S1 S2 A).
    + intros q _. apply NoDup_iterF.
Qed.

(** C4: [has_unique_atoms] answers [True] exactly when the surmise
    system has as many (element, minimal set) associations as sets,
    which is exactly when no set is minimal at two elements. *)
Theorem has_unique_atoms_correct (sets : family) :
  (has_unique_atoms iterZ iterF sets = true
   ↔ size (surmise_assocs (get_surmise iterZ iterF sets))
     = size (surmise_atoms (get_surmise iterZ iterF sets)))
  ∧ (size (surmise_assocs (get_surmise iterZ iterF sets))
     = size (surmise_atoms (get_surmise iterZ iterF sets))
     ↔ atoms_unshared (get_surmise iterZ iterF sets)).
Proof.
  unfold has_unique_atoms.
  rewrite count_atoms_spec, size_surmise_assocs, surmise_atoms_list.
  split; [|by rewrite NoDup_size_list_to_set, atoms_unshared_NoDup].
  case_bool_decide; split; done.
Qed.

(** ** Well-gradedness *)

Lemma is_well_graded_loop_spec (sets : family) (bs : list (gset Z))
    (out : list string) :
  ((∀ b, b ∈ bs →
         has_unique_atoms iterZ iterF (project_family iterF sets b) = true)
   ∧ is_well_graded_loop iterZ iterF sets bs out
     = (out ++ (pass_line iterZ <$> bs), true))
  ∨ (∃ bs1 b bs2,
       bs = bs1 ++ b :: bs2
       ∧ (∀ b', b' ∈ bs1 →
            has_unique_atoms iterZ iterF (project_family iterF sets b')
            = true)
       ∧ has_unique_atoms iterZ iterF (project_family iterF sets b) = false
       ∧ is_well_graded_loop iterZ iterF sets bs out
         = (out ++ (pass_line iterZ <$> bs1) ++ [error_line iterZ b],
            false)).
Proof.
  clear. revert out. induction bs as [|b bs IH]; intros out.
  - left. split; [by intros ? ?%elem_of_nil|].
    cbn [is_well_graded_loop fmap list_fmap]. by rewrite app_nil_r.
  - cbn [is_well_graded_loop].
    destruct (has_unique_atoms iterZ iterF (project_family iterF sets b))
      eqn:Hb; cbn [negb].
    + destruct (IH (out ++ [pass_line iterZ b]))
        as [[Hall ->]|(bs1 & b' & bs2 & -> & Hall & Hfail & ->)].
      * left. split; [by intros ? [->|?]%elem_of_cons; auto|].
        by rewrite fmap_cons, <- (assoc_L (++)).
      * right. exists (b :: bs1), b', bs2. split; [done|].
        split; [by intros ? [->|?]%elem_of_cons; auto|]. split; [done|].
        by rewrite fmap_cons, <- !(assoc_L (++)).
    + right. exists [], b, bs. split; [done|].
      split; [by intros ? ?%elem_of_nil|]. done.
Qed.

(** C3: [is_well_graded] answers [True] exactly when every projection
    by a set of the base has unique atoms, and then prints a line for
    each; when it answers [False] it has stopped at the first set of
    the base, in visiting order, whose projection has not: the output
    ends with the error line of that set, after a passing line for each
    set visited before it. *)
Theorem is_well_graded_correct (sets base : family) :
  ((is_well_graded iterZ iterF sets base).2 = true
   ↔ ∀ b, b ∈ base →
          has_unique_atoms iterZ iterF (project_family iterF sets b)
          = true)
  ∧ ((is_well_graded iterZ iterF sets base).2 = true →
     (is_well_graded iterZ iterF sets base).1
     = "Checking if each projection is well-graded..."
         :: (pass_line iterZ <$> iterF base))
  ∧ ((is_well_graded iterZ iterF sets base).2 = false →
     ∃ bs1 b bs2,
       iterF base = bs1 ++ b :: bs2
       ∧ (∀ b', b' ∈ bs1 →
            has_unique_atoms iterZ iterF (project_family iterF sets b')
            = true)
       ∧ has_unique_atoms iterZ iterF (project_family iterF sets b)
         = false
       ∧ (is_well_graded iterZ iterF sets base).1
         = "Checking if each projection is well-graded..."
             :: (pass_line iterZ <$> bs1) ++ [error_line iterZ b]).
Proof.
  unfold is_well_graded.
  destruct (is_well_graded_loop_spec sets (iterF base)
              ["Checking if each projection is well-graded..."])
    as [[Hall ->]|(bs1 & b & bs2 & Hbase & Hall & Hfail & ->)];
    cbn [fst snd].
  - split; [|split; [done|done]]. split; [|done].
    intros _ b ?. by apply Hall, elem_of_iterF.
  - split; [|split; [done|]].
    + split; [done|]. intros Hok.
      rewrite Hok in Hfail; [done|].
      apply elem_of_iterF. rewrite Hbase, elem_of_app. right. left.
    + intros _. by exists bs1, b, bs2.
Qed.

(** C10: with an empty base [is_well_graded] answers [True] whatever
    the family, having printed its heading and nothing else. *)
Theorem is_well_graded_empty_base (sets : family) :
  is_well_graded iterZ iterF sets ∅
  = (["Checking if each projection is well-graded..."], true).
Proof. unfold is_well_graded. by rewrite iterF_empty. Qed.
End Correctness.

(** * The other functions: correctness *)

(** ** Minimal sets of a sequence *)

Lemma foldl_seq_lookup {A B : Type} (g : A → nat → A) (h : A → B → A)
    (l : list B) (a : A) :
  (∀ acc i x, l !! i = Some x → g acc i = h acc x) →
  foldl g a (seq 0 (length l)) = foldl h a l.
Proof.
  intros Hgh.
  assert (∀ k, k ≤ length l →
               foldl g a (seq 0 k) = foldl h a (take k l)) as Hpre.
  { induction k as [|k IH]; intros Hk; [done|].
    destruct (lookup_lt_is_Some_2 l k) as [x Hx]; [lia|].
    rewrite seq_S, foldl_snoc, (take_S_r _ _ x), foldl_snoc by done.
    rewrite IH by lia. by apply Hgh. }
  rewrite Hpre by done. by rewrite take_ge.
Qed.

Lemma is_minimal_at_true (sets : list (gset Z)) (i : nat) (A : pyset) :
  sets !! i = Some A →
  is_minimal_at sets i = true ↔ minimal_in sets A.
Proof.
  intros Hi. unfold is_minimal_at.
  rewrite (list_lookup_total_correct _ _ _ Hi).
  destruct (for_return _ _) as [r|] eqn:Hrun; cbn [default from_option id].
  - apply for_return_Some in Hrun as (l1 & j & l2 & Hseq & _ & Hbody).
    destruct (bool_decide (i ≠ j)) eqn:Hij; [|done].
    case_bool_decide as Hlt; [|done]. injection Hbody as <-.
    split; [done|]. intros Hmin. destruct (Hmin (sets !!! j)); [|done].
    assert (j ∈ seq 0 (length sets)) as Hj%elem_of_seq.
    { rewrite Hseq, elem_of_app. right. left. }
    destruct (lookup_lt_is_Some_2 sets j) as [B HB]; [lia|].
    rewrite (list_lookup_total_correct _ _ _ HB).
    apply list_elem_of_lookup. eauto.
  - split; [|done]. intros _ B [j Hj]%list_elem_of_lookup Hlt.
    assert (j ∈ seq 0 (length sets)) as Hin.
    { apply elem_of_seq. apply lookup_lt_Some in Hj. lia. }
    apply (proj1 (for_return_None _ _) Hrun) in Hin.
    rewrite (list_lookup_total_correct _ _ _ Hj) in Hin.
    rewrite (bool_decide_true (B ⊂ A)), andb_true_r in Hin by done.
    case_bool_decide as Hij; [done|].
    assert (i = j) as -> by (by destruct (decide (i = j))).
    rewrite Hi in Hj. injection Hj as ->. by destruct Hlt as [_ []].
Qed.

Lemma dict_set_self (A : pyset) (ks : list (gset Z)) :
  dict_set A A ((λ B, (B, B)) <$> ks)
  = (λ B, (B, B)) <$> (if decide (A ∈ ks) then ks else ks ++ [A]).
Proof.
  induction ks as [|B ks IH]; [done|].
  rewrite fmap_cons. cbn [dict_set]. destruct (decide (A = B)) as [->|Hne].
  - by rewrite decide_True by left.
  - rewrite IH. destruct (decide (A ∈ ks)) as [Hin|Hin].
    + by rewrite decide_True by (by right).
    + by rewrite decide_False by (by intros [?|?]%elem_of_cons).
Qed.

Lemma foldl_dict_set_firsts (P : gset Z → Prop) `{∀ A, Decision (P A)}
    (l ks : list (gset Z)) :
  (foldl (λ d A, if decide (P A) then dict_set A A d else d)
         ((λ B, (B, B)) <$> ks) l).*2
  = firsts_where P ks l.
Proof.
  unfold firsts_where. revert ks.
  induction l as [|A l IH]; intros ks; cbn [foldl].
  - rewrite <- list_fmap_compose. apply list_fmap_id.
  - destruct (decide (P A)); [|apply IH]. rewrite dict_set_self. apply IH.
Qed.

(** The dict of [get_minimal_sets] holds the minimal sets, each under
    itself as key, in the order they first occur. *)
Lemma get_minimal_sets_firsts (sets : list (gset Z)) :
  get_minimal_sets sets = firsts_where (minimal_in sets) [] sets.
Proof.
  unfold get_minimal_sets.
  rewrite (foldl_seq_lookup _
             (λ d A, if decide (minimal_in sets A)
                     then dict_set A A d else d)).
  - apply (foldl_dict_set_firsts (minimal_in sets) sets []).
  - intros d i A Hi. rewrite (list_lookup_total_correct _ _ _ Hi).
    destruct (is_minimal_at sets i) eqn:Hmin.
    + by rewrite decide_True by (by apply (is_minimal_at_true sets i)).
    + rewrite decide_False; [done|].
      intros ?%(is_minimal_at_true sets i); [congruence|done].
Qed.

Section firsts_where.
Context {A : Type} `{EqDecision A} (P : A → Prop) `{∀ x, Decision (P x)}.

Lemma elem_of_firsts_where (acc l : list A) (x : A) :
  x ∈ firsts_where P acc l ↔ x ∈ acc ∨ (x ∈ l ∧ P x).
Proof.
  unfold firsts_where. revert acc.
  induction l as [|y l IH]; intros acc; cbn [foldl].
  - split; [auto|]. by intros [?|[?%elem_of_nil _]].
  - rewrite IH. setoid_rewrite elem_of_cons.
    destruct (decide (P y)); [destruct (decide (y ∈ acc))|].
    + naive_solver.
    + rewrite elem_of_app, list_elem_of_singleton. naive_solver.
    + naive_solver.
Qed.

Lemma NoDup_firsts_where (acc l : list A) :
  NoDup acc → NoDup (firsts_where P acc l).
Proof.
  unfold firsts_where. revert acc.
  induction l as [|y l IH]; intros acc Hacc; cbn [foldl]; [done|].
  apply IH. destruct (decide (P y)); [|done].
  destruct (decide (y ∈ acc)); [done|].
  apply NoDup_app. split; [done|]. split; [|apply NoDup_singleton].
  by intros x ? ->%list_elem_of_singleton.
Qed.


Lemma firsts_where_all (acc l : list A) :
  NoDup (acc ++ l) → (∀ x, x ∈ l → P x) →
  firsts_where P acc l = acc ++ l.
Proof.
  unfold firsts_where. revert acc.
  induction l as [|y l IH]; intros acc Hnd HP; cbn [foldl].
  - by rewrite app_nil_r.
  - rewrite decide_True by (apply HP; left).
    apply NoDup_app in Hnd as Hparts. destruct Hparts as (_ & Hdisj & _).
    rewrite decide_False by (intros Hy; by apply (Hdisj y Hy); left).
    rewrite IH.
    + by rewrite <- (assoc_L (++)).
    + by rewrite <- (assoc_L (++)).
    + intros x ?. apply HP. by right.
Qed.
End firsts_where.

(** Below every set of a sequence there is one with nothing of the
    sequence strictly inside it. *)
Lemma minimal_in_below (sets : list (gset Z)) (A : pyset) :
  A ∈ sets → ∃ M, M ∈ sets ∧ minimal_in sets M ∧ M ⊆ A.
Proof.
  induction (Nat.lt_wf_0_projected size A) as [A _ IH]. intros HA.
  destruct (decide (minimal_in sets A)) as [Hmin|Hmin]; [by exists A|].
  assert (Exists (λ B, B ⊂ A) sets) as (B & HB & Hlt)%Exists_exists.
  { destruct (decide (Exists (λ B, B ⊂ A) sets)) as [?|Hnone]; [done|].
    destruct Hmin. intros B HB Hlt. apply Hnone, Exists_exists. eauto. }
  destruct (IH B (subset_size _ _ Hlt) HB) as (M & ? & ? & ?).
  exists M. split; [done|]. split; [done|]. etrans; [done|].
  by apply strict_include.
Qed.


(** X7: every set of the sequence contains a returned set; a sequence
    that is not empty has a minimal set. *)
Theorem get_minimal_sets_below (sets : list (gset Z)) :
  (∀ A, A ∈ sets → ∃ M, M ∈ get_minimal_sets sets ∧ M ⊆ A)
  ∧ (sets ≠ [] → get_minimal_sets sets ≠ []).
Proof.
  assert (∀ A, A ∈ sets → ∃ M, M ∈ get_minimal_sets sets ∧ M ⊆ A) as Hlow.
  { intros A (M & ? & ? & ?)%minimal_in_below. exists M. split; [|done].
    rewrite get_minimal_sets_firsts. apply elem_of_firsts_where. auto. }
  split; [done|]. destruct sets as [|A sets]; [done|]. intros _ Hnil.
  destruct (Hlow A) as (M & HM & _); [left|].
  rewrite Hnil in HM. by apply elem_of_nil in HM.
Qed.

(** X8: the minimal sets of the returned list are the list itself. *)
Theorem get_minimal_sets_idempotent (sets : list (gset Z)) :
  get_minimal_sets (get_minimal_sets sets) = get_minimal_sets sets.
Proof.
  rewrite (get_minimal_sets_firsts (get_minimal_sets sets)).
  apply (firsts_where_all _ []).
  - rewrite get_minimal_sets_firsts. apply NoDup_firsts_where. constructor.
  - intros A HA B HB. rewrite get_minimal_sets_firsts in HA, HB.
    apply elem_of_firsts_where in HA as [?%elem_of_nil|[_ HA]]; [done|].
    apply elem_of_firsts_where in HB as [?%elem_of_nil|[HB _]]; [done|].
    by apply HA.
Qed.

(** ** Unions and differences *)

Lemma union_list_difference (l : list (gset Z)) (X : pyset) :
  ⋃ ((λ A, A ∖ X) <$> l) = ⋃ l ∖ X.
Proof.
  induction l as [|A l IH]; [set_solver|].
  rewrite fmap_cons. cbn [union_list foldr]. change (foldr union ∅) with
    (union_list (A:=gset Z)). rewrite IH. set_solver.
Qed.

Lemma generated_mono (base base' : family) (A : pyset) :
  base ⊆ base' → generated base A → generated base' A.
Proof.
  intros Hsub (m & l & ? & ? & Hl & ->). exists m, l.
  split; [done|]. split; [done|]. split; [|done]. intros b ?. by apply Hsub, Hl.
Qed.

(** ** Counting members *)

Lemma size_filter_perm (P : gset Z → Prop) `{∀ A, Decision (P A)}
    (F : family) (l : list (gset Z)) :
  l ≡ₚ elements F → length (filter P l) = size (filter P F).
Proof.
  intros Hperm.
  rewrite <- (size_list_to_set (C:=gset (gset Z)) (filter P l)).
  - f_equal. apply set_eq. intros A.
    rewrite elem_of_list_to_set, list_elem_of_filter, elem_of_filter.
    by rewrite Hperm, elem_of_elements.
  - apply NoDup_filter. rewrite Hperm. apply NoDup_elements.
Qed.

(** The inner loop of [count_elements] for the member [a]: every key of
    [bs] is in the dict, and gets one more if it is in [a]. *)
Lemma count_elements_inner (a : pyset) (bs : list Z) (d : gmap Z nat) :
  NoDup bs → (∀ b, b ∈ bs → is_Some (d !! b)) →
  ∃ d', foldl (λ count_dict b,
                 d ← count_dict;
                 if bool_decide (b ∈ a)
                 then n ← d !! b; Some (<[b := S n]> d)
                 else Some d)
              (Some d) bs = Some d'
        ∧ ∀ b, d' !! b = if decide (b ∈ bs ∧ b ∈ a)
                         then S <$> d !! b else d !! b.
Proof.
  revert d. induction bs as [|b0 bs IH]; intros d Hnd Hkeys; cbn [foldl].
  - exists d. split; [done|]. intros b.
    by rewrite decide_False by (by intros [?%elem_of_nil _]).
  - apply NoDup_cons in Hnd as [Hb0 Hnd].
    destruct (Hkeys b0) as [n Hn]; [left|]. cbn [mbind option_bind].
    case_bool_decide as Ha.
    + rewrite Hn. cbn [mbind option_bind].
      destruct (IH (<[b0 := S n]> d) Hnd) as (d' & -> & Hd').
      { intros b ?. destruct (decide (b = b0)) as [->|?].
        - rewrite lookup_insert_eq. eauto.
        - rewrite lookup_insert_ne by done. apply Hkeys. by right. }
      exists d'. split; [done|]. intros b. rewrite Hd'.
      destruct (decide (b = b0)) as [->|Hne].
      * rewrite decide_False by (by intros [? _]).
        rewrite decide_True by (split; [left|done]).
        by rewrite lookup_insert_eq, Hn.
      * rewrite lookup_insert_ne by done.
        destruct (decide (b ∈ bs ∧ b ∈ a)) as [[? ?]|Hno].
        -- by rewrite decide_True by (split; [by right|done]).
        -- rewrite decide_False; [done|].
           intros [[?|?]%elem_of_cons ?]; [done|]. by apply Hno.
    + destruct (IH d Hnd) as (d' & -> & Hd').
      { intros b ?. apply Hkeys. by right. }
      exists d'. split; [done|]. intros b. rewrite Hd'.
      destruct (decide (b ∈ bs ∧ b ∈ a)) as [[? ?]|Hno].
      * by rewrite decide_True by (split; [by right|done]).
      * rewrite decide_False; [done|].
        intros [[->|?]%elem_of_cons ?]; [done|]. by apply Hno.
Qed.

Lemma count_elements_outer (bs : list Z) (fam : list (gset Z))
    (d : gmap Z nat) :
  NoDup bs → (∀ b, b ∈ bs → is_Some (d !! b)) →
  ∃ d', foldl (λ count_dict a,
                 foldl (λ count_dict b,
                          d ← count_dict;
                          if bool_decide (b ∈ a)
                          then n ← d !! b; Some (<[b := S n]> d)
                          else Some d)
                       count_dict bs)
              (Some d) fam = Some d'
        ∧ ∀ b, d' !! b
               = if decide (b ∈ bs)
                 then (λ n, n + length (filter (λ a, b ∈ a) fam)) <$> d !! b
                 else d !! b.
Proof.
  intros Hnd. revert d.
  induction fam as [|a fam IH]; intros d Hkeys; cbn [foldl].
  - exists d. split; [done|]. intros b. destruct (decide (b ∈ bs)); [|done].
    destruct (d !! b); [|done]. cbn. f_equal. lia.
  - destruct (count_elements_inner a bs d Hnd Hkeys) as (d1 & -> & Hd1).
    destruct (IH d1) as (d' & -> & Hd').
    { intros b Hb. rewrite Hd1. destruct (Hkeys b Hb) as [n ->].
      destruct (decide _); cbn; eauto. }
    exists d'. split; [done|]. intros b. rewrite Hd', Hd1.
    destruct (decide (b ∈ bs)) as [Hb|Hb].
    + destruct (decide (b ∈ a)) as [Ha|Ha].
      * rewrite decide_True by done. rewrite filter_cons_True by done.
        destruct (d !! b); [|done]. cbn. f_equal. lia.
      * rewrite decide_False by (by intros [_ ?]).
        by rewrite filter_cons_False by done.
    + by rewrite decide_False by (by intros [? _]).
Qed.

(** ** How many unions there are *)

Lemma length_nonempty_unions (l : list (gset Z)) :
  length (nonempty_unions l) = 2 ^ length l - 1.
Proof.
  induction l as [|b l IH]; [done|].
  cbn [nonempty_unions length]. rewrite length_app, length_fmap, IH.
  rewrite Nat.pow_succ_r'.
  assert (2 ^ length l ≠ 0) by (apply Nat.pow_nonzero; lia). lia.
Qed.

Lemma nonempty_unions_member (l : list (gset Z)) (b : pyset) :
  b ∈ l → b ∈ nonempty_unions l.
Proof.
  induction l as [|c l IH]; [by intros ?%elem_of_nil|].
  intros [->|Hb]%elem_of_cons; cbn [nonempty_unions]; [left|].
  right. apply elem_of_app. left. by apply IH.
Qed.

Lemma nonempty_unions_union (l : list (gset Z)) (b A : pyset) :
  b ∈ l → A ∈ nonempty_unions l → b ∪ A ∈ nonempty_unions l.
Proof.
  revert b A. induction l as [|c l IH]; intros b A;
    [by intros ?%elem_of_nil|].
  cbn [nonempty_unions]. rewrite !elem_of_cons, !elem_of_app,
    !list_elem_of_fmap.
  intros [->|Hb] [->|[HA|(A' & -> & HA')]].
  - left. apply (idemp_L (∪)).
  - right. right. by exists A.
  - right. right. exists A'. split; [|done].
    by rewrite (assoc_L (∪)), (idemp_L (∪)).
  - right. right. exists b. split; [apply (comm_L (∪))|].
    by apply nonempty_unions_member.
  - right. left. by apply IH.
  - right. right. exists (b ∪ A'). split; [|by apply IH].
    by rewrite !(assoc_L (∪)), (comm_L (∪) b c).
Qed.

Lemma generated_nonempty_unions (base : family) (A : pyset) :
  generated base A → A ∈ nonempty_unions (elements base).
Proof.
  intros (m & l & Hne & _ & Hl & ->).
  induction l as [|b [|c l] IH]; [done| |].
  - cbn. rewrite (right_id_L ∅ (∪)).
    apply nonempty_unions_member, elem_of_elements, Hl. left.
  - change (⋃ (b :: c :: l)) with (b ∪ ⋃ (c :: l)).
    apply nonempty_unions_union.
    + apply elem_of_elements, Hl. left.
    + apply IH; [done|]. intros ??. apply Hl. by right.
Qed.

Section Correctness_rest.
Context (iterZ : gset Z → list Z) (iterF : gset (gset Z) → list (gset Z)).
Hypothesis iterZ_perm : ∀ s, iterZ s ≡ₚ elements s.
Hypothesis iterF_perm : ∀ F, iterF F ≡ₚ elements F.

(** ** Tests over the pairs of distinct members *)

Lemma pair_loop_true (sets : family)
    (body : gset Z → gset Z → option bool) :
  (∀ A B r, body A B = Some r → r = false) →
  default true
    (for_return (iterF sets) (λ A,
       for_return (iterF (sets ∖ {[A]})) (body A))) = true
  ↔ ∀ A B, A ∈ sets → B ∈ sets → A ≠ B → body A B = None.
Proof using iterF_perm.
  clear iterZ iterZ_perm. intros Hfalse.
  destruct (for_return (iterF sets) _) as [r|] eqn:Hrun;
    cbn [default from_option id].
  - apply for_return_Some in Hrun as (l1 & A & l2 & Hsets & _ & Hinner).
    apply for_return_Some in Hinner as (m1 & B & m2 & Hrest & _ & Hbody).
    rewrite (Hfalse _ _ _ Hbody). split; [done|]. intros Hall.
    rewrite Hall in Hbody; [done| | |].
    + apply (elem_of_iterF iterF iterF_perm).
      rewrite Hsets, elem_of_app. right. left.
    + assert (B ∈ sets ∖ {[A]}) as HB.
      { apply (elem_of_iterF iterF iterF_perm).
        rewrite Hrest, elem_of_app. right. left. }
      by apply elem_of_difference in HB as [? _].
    + assert (B ∈ sets ∖ {[A]}) as HB.
      { apply (elem_of_iterF iterF iterF_perm).
        rewrite Hrest, elem_of_app. right. left. }
      apply elem_of_difference in HB as [_ HB]. intros ->. apply HB.
      by apply elem_of_singleton.
  - split; [|done]. intros _ A B HA HB HAB.
    pose proof (proj1 (for_return_None _ _) Hrun A) as Hinner.
    apply (proj1 (for_return_None _ _)
             (Hinner (proj2 (elem_of_iterF iterF iterF_perm _ _) HA))).
    apply (elem_of_iterF iterF iterF_perm), elem_of_difference.
    split; [done|]. by intros ->%elem_of_singleton.
Qed.

Lemma is_X_closed_true (sets : family) (X : pyset) :
  is_X_closed iterF sets X = true
  ↔ ∀ A B, A ∈ sets → B ∈ sets → A ≠ B → X ⊂ A ∩ B → A ∩ B ∈ sets.
Proof using iterF_perm.
  unfold is_X_closed. rewrite pair_loop_true.
  - by setoid_rewrite X_closed_body_None.
  - by intros A B r (-> & _)%X_closed_body_Some.
Qed.

Lemma is_union_closed_true (sets : family) :
  is_union_closed iterF sets = true ↔ union_closed sets.
Proof using iterF_perm.
  unfold is_union_closed. rewrite pair_loop_true.
  - split.
    + intros Hall A B HA HB. destruct (decide (A = B)) as [->|Hne].
      * by rewrite (idemp_L (∪)).
      * specialize (Hall A B HA HB Hne). by case_bool_decide.
    + intros Hclosed A B HA HB _. rewrite bool_decide_false; [done|].
      intros Hnot. by apply Hnot, Hclosed.
  - intros A B r. by case_bool_decide; intros [= <-].
Qed.

(** X1: [is_union_closed] tests the pairs of distinct members only, and
    this decides closure under union of any two members; a family of at
    most one set passes. *)
Theorem is_union_closed_correct (sets : family) :
  (is_union_closed iterF sets = true ↔ union_closed sets)
  ∧ (size sets ≤ 1 → is_union_closed iterF sets = true).
Proof using iterF_perm.
  split; [apply is_union_closed_true|]. intros Hsize.
  apply is_union_closed_true. intros A B HA HB.
  assert (A = B) as ->; [|by rewrite (idemp_L (∪))].
  apply (size_singleton_inv sets); [|done|done].
  assert (size sets ≠ 0); [|lia].
  intros Hempty%size_empty_iff.
  by apply (not_elem_of_empty (C:=gset (gset Z)) A), Hempty.
Qed.

(** X2: [is_intersection_closed] answers [True] exactly when the
    intersection of any two members is a member. *)
Theorem is_intersection_closed_correct (sets : family) :
  is_intersection_closed iterF sets = true
  ↔ ∀ A B, A ∈ sets → B ∈ sets → A ∩ B ∈ sets.
Proof using iterF_perm.
  unfold is_intersection_closed. rewrite pair_loop_true.
  - split.
    + intros Hall A B HA HB. destruct (decide (A = B)) as [->|Hne].
      * by rewrite (idemp_L (∩)).
      * specialize (Hall A B HA HB Hne). by case_bool_decide.
    + intros Hclosed A B HA HB _. rewrite bool_decide_false; [done|].
      intros Hnot. by apply Hnot, Hclosed.
  - intros A B r. by case_bool_decide; intros [= <-].
Qed.

(** X3: an intersection-closed family is X-closed for every [X]. *)
Theorem is_X_closed_of_intersection_closed (sets : family) (X : pyset) :
  is_intersection_closed iterF sets = true →
  is_X_closed iterF sets X = true.
Proof using iterF_perm.
  unfold is_intersection_closed. rewrite pair_loop_true, is_X_closed_true.
  - intros Hall A B HA HB Hne _. specialize (Hall A B HA HB Hne).
    by case_bool_decide.
  - intros A B r. by case_bool_decide; intros [= <-].
Qed.

(** X4: X-closedness is kept when [X] grows. *)
Theorem is_X_closed_mono (sets : family) (X X' : pyset) :
  X ⊆ X' → is_X_closed iterF sets X = true →
  is_X_closed iterF sets X' = true.
Proof using iterF_perm.
  rewrite !is_X_closed_true. intros Hsub Hall A B HA HB Hne [Hin Hnot].
  apply Hall; [done|done|done|]. split; [by etrans|].
  intros Hback. apply Hnot. by etrans.
Qed.

Lemma create_family_from_base_generated (fuel : nat) (base F : family) :
  create_family_from_base iterF fuel base = Some F →
  ∀ A, A ∈ F ↔ generated base A.
Proof using iterF_perm.
  intros Hrun.
  destruct (create_family_from_base_spec iterF iterF_perm base)
    as (F' & Hrun' & HF').
  apply (create_family_loop_mono iterF _ (fuel + size base)) in Hrun;
    [|lia].
  apply (create_family_loop_mono iterF _ (fuel + size base)) in Hrun';
    [|lia].
  unfold create_family_from_base in Hrun. rewrite Hrun in Hrun'.
  by injection Hrun' as ->.
Qed.

(** X5: the family returned by [create_family_from_base] passes
    [is_union_closed]. *)
Theorem is_union_closed_create_family (fuel : nat) (base F : family) :
  create_family_from_base iterF fuel base = Some F →
  is_union_closed iterF F = true.
Proof using iterF_perm.
  intros Hrun.
  pose proof (create_family_from_base_generated _ _ _ Hrun) as HF.
  apply is_union_closed_true. intros A B ?%HF ?%HF.
  by apply HF, generated_union.
Qed.

(** ** The base of a family *)

Lemma get_surmise_entry (sets : family) (q : Z) (S : family) :
  get_surmise iterZ iterF sets !! q = Some S →
  retained q (iterF sets) S ∧ ∃ A, A ∈ sets ∧ q ∈ A.
Proof using iterZ_perm iterF_perm.
  rewrite (get_surmise_lookup iterZ iterF iterZ_perm).
  destruct (decide (q ∈ get_universe iterF sets)) as [Hq|]; [|done].
  intros [= <-]. split; [apply (surmise_fold_retained iterF iterF_perm)|].
  by apply (elem_of_get_universe iterF iterF_perm).
Qed.

Lemma foldl_add_lists {A B : Type} `{Countable B} (g : A → list B)
    (ks : list A) (acc : gset B) :
  foldl (λ acc q, foldl (λ acc x, acc ∪ {[x]}) acc (g q)) acc ks
  = acc ∪ list_to_set (ks ≫= g).
Proof.
  clear. revert acc. induction ks as [|q ks IH]; intros acc; cbn [foldl].
  - set_solver.
  - rewrite IH, (foldl_add_singleton id), list_fmap_id, bind_cons,
      list_to_set_app_L. by rewrite (assoc_L (∪)).
Qed.

Lemma get_base_atoms (sets : family) :
  get_base iterZ iterF sets
  = surmise_atoms (get_surmise iterZ iterF sets).
Proof using iterZ_perm iterF_perm.
  unfold get_base. rewrite foldl_add_lists, (left_id_L ∅ (∪)).
  symmetry. by apply surmise_atoms_list.
Qed.

Lemma elem_of_get_base (sets : family) (A : pyset) :
  A ∈ get_base iterZ iterF sets
  ↔ ∃ q, A ∈ sets ∧ q ∈ A ∧ ∀ B, B ∈ sets → q ∈ B → ¬ B ⊂ A.
Proof using iterZ_perm iterF_perm.
  rewrite get_base_atoms, elem_of_surmise_atoms. split.
  - intros (q & S & [Hret _]%get_surmise_entry & HA). exists q.
    apply (retained_minimal q _ _ A Hret) in HA as (HA & ? & Hmin).
    apply (elem_of_iterF iterF iterF_perm) in HA. split; [done|].
    split; [done|]. intros B HB. apply Hmin.
    by apply (elem_of_iterF iterF iterF_perm).
  - intros (q & HA & Hq & Hmin).
    assert (q ∈ get_universe iterF sets) as Huni
      by (apply (elem_of_get_universe iterF iterF_perm); eauto).
    exists q, (foldl (surmise_step iterF q) ∅ (iterF sets)). split.
    + by rewrite (get_surmise_lookup iterZ iterF iterZ_perm),
        decide_True.
    + apply (retained_minimal q (iterF sets));
        [apply (surmise_fold_retained iterF iterF_perm)|].
      split; [by apply (elem_of_iterF iterF iterF_perm)|].
      split; [done|]. intros B HB%(elem_of_iterF iterF iterF_perm).
      by apply Hmin.
Qed.

(** Below a member that contains [q] there is a member minimal among
    those containing [q]. *)
Lemma get_base_below (sets : family) (A : pyset) (q : Z) :
  A ∈ sets → q ∈ A →
  ∃ M, M ∈ get_base iterZ iterF sets ∧ q ∈ M ∧ M ⊆ A.
Proof using iterZ_perm iterF_perm.
  intros HA Hq.
  pose proof (surmise_fold_retained iterF iterF_perm q (iterF sets))
    as Hret.
  pose proof Hret as (Hin & _ & Hbelow).
  destruct (Hbelow A) as (M & HM & Hsub);
    [by apply (elem_of_iterF iterF iterF_perm)|done|].
  exists M. destruct (Hin M HM) as [_ HqM]. split; [|done].
  apply elem_of_get_base. exists q.
  apply (retained_minimal q _ _ M Hret) in HM as (HM & _ & Hmin).
  split; [by apply (elem_of_iterF iterF iterF_perm) in HM|].
  split; [done|]. intros B HB%(elem_of_iterF iterF iterF_perm).
  by apply Hmin.
Qed.

(** X9: the base of a family consists of the members that are minimal
    among the members containing one of their elements; it is part of
    the family and never has the empty set. *)
Theorem get_base_correct (sets : family) :
  (∀ A, A ∈ get_base iterZ iterF sets
        ↔ ∃ q, A ∈ sets ∧ q ∈ A ∧ ∀ B, B ∈ sets → q ∈ B → ¬ B ⊂ A)
  ∧ get_base iterZ iterF sets ⊆ sets
  ∧ ∅ ∉ get_base iterZ iterF sets.
Proof using iterZ_perm iterF_perm.
  split; [apply elem_of_get_base|]. split.
  - by intros A (q & ? & _)%elem_of_get_base.
  - by intros (q & _ & ?%not_elem_of_empty & _)%elem_of_get_base.
Qed.

(** X10: the base of a family built by [create_family_from_base] lies
    within the base it was built from. *)
Theorem get_base_create_family (fuel : nat) (base F : family) :
  create_family_from_base iterF fuel base = Some F →
  get_base iterZ iterF F ⊆ base.
Proof using iterZ_perm iterF_perm.
  intros Hrun A (q & HA & Hq & Hmin)%elem_of_get_base.
  pose proof (create_family_from_base_generated _ _ _ Hrun) as HF.
  apply HF in HA as (m & l & _ & _ & Hl & ->).
  apply elem_of_union_list in Hq as (b & Hb & Hqb).
  assert (b ⊆ ⋃ l) as Hsub
    by (intros x Hx; apply elem_of_union_list; eauto).
  destruct (decide (⋃ l ⊆ b)) as [Hback|Hback].
  - assert (⋃ l = b) as -> by (by apply (anti_symm (⊆))). auto.
  - destruct (Hmin b); [by apply HF, generated_base, Hl|done|done].
Qed.

Lemma generated_get_base (F : family) (A : pyset) :
  union_closed F →
  generated (get_base iterZ iterF F) A ↔ A ∈ F ∧ A ≠ ∅.
Proof using iterZ_perm iterF_perm.
  intros Hclosed. split.
  - intros Hgen. split.
    + apply (generated_least (get_base iterZ iterF F)); [|done|done].
      by intros B (q & ? & _)%elem_of_get_base.
    + destruct Hgen as (m & [|b l] & Hne & _ & Hl & ->); [done|].
      assert (b ∈ get_base iterZ iterF F)
        as (q & _ & Hq & _)%elem_of_get_base by (apply Hl; left).
      intros Hempty. apply (not_elem_of_empty (C:=gset Z) q).
      rewrite <- Hempty. apply elem_of_union_list. exists b.
      split; [left|done].
  - intros [HA Hne].
    assert (∀ qs : list Z, (∀ q, q ∈ qs → q ∈ A) → qs ≠ [] →
              ∃ l, l ≠ [] ∧ (∀ b, b ∈ l → b ∈ get_base iterZ iterF F ∧ b ⊆ A)
                   ∧ ∀ q, q ∈ qs → q ∈ ⋃ l) as Hcover.
    { induction qs as [|q [|q' qs] IH]; intros Hqs Hnil; [done| |].
      - destruct (get_base_below F A q HA) as (M & HM & HqM & Hsub);
          [apply Hqs; left|].
        exists [M]. split; [done|]. split.
        + by intros b ->%list_elem_of_singleton.
        + intros ? ->%list_elem_of_singleton. apply elem_of_union_list.
          exists M. split; [left|done].
      - destruct IH as (l & Hl & Hbase & Hcov);
          [intros ??; apply Hqs; by right|done|].
        destruct (get_base_below F A q HA) as (M & HM & HqM & Hsub);
          [apply Hqs; left|].
        exists (M :: l). split; [done|]. split.
        + intros b [->|?]%elem_of_cons; auto.
        + intros q0 [->|Hq0]%elem_of_cons; apply elem_of_union_list.
          * exists M. split; [left|done].
          * apply Hcov, elem_of_union_list in Hq0 as (b & ? & ?).
            exists b. split; [by right|done]. }
    destruct (Hcover (elements A)) as (l & Hl & Hbase & Hcov).
    { intros q. apply elem_of_elements. }
    { intros Hnil%elements_empty_iff. by apply Hne, leibniz_equiv. }
    exists (length l), l. split; [done|]. split; [done|].
    split; [intros b ?; by apply Hbase|]. apply set_eq. intros q. split.
    + intros Hq. by apply Hcov, elem_of_elements.
    + intros (b & Hb & Hq)%elem_of_union_list.
      destruct (Hbase b Hb) as [_ Hsub]. by apply Hsub.
Qed.

(** X11: a union-closed family is rebuilt from its base, up to the empty
    set: [create_family_from_base] on [get_base F] returns [F] without
    the empty set. *)
Theorem create_family_get_base (fuel : nat) (F : family) :
  union_closed F → size (get_base iterZ iterF F) ≤ fuel →
  create_family_from_base iterF fuel (get_base iterZ iterF F)
  = Some (F ∖ {[∅]}).
Proof using iterZ_perm iterF_perm.
  intros Hclosed Hfuel.
  destruct (create_family_from_base_spec iterF iterF_perm
              (get_base iterZ iterF F)) as (F' & Hrun & HF').
  apply (create_family_loop_mono iterF _ fuel) in Hrun; [|done].
  unfold create_family_from_base. rewrite Hrun. f_equal.
  apply set_eq. intros A.
  rewrite HF', generated_get_base, elem_of_difference, elem_of_singleton
    by done.
  done.
Qed.

(** ** More on the surmise system *)

(** X12: [get_surmise] has an entry exactly for the elements of the
    members, and no entry is empty. *)
Theorem get_surmise_entries (sets : family) :
  (∀ q, is_Some (get_surmise iterZ iterF sets !! q)
        ↔ ∃ A, A ∈ sets ∧ q ∈ A)
  ∧ (∀ q S, get_surmise iterZ iterF sets !! q = Some S → S ≠ ∅).
Proof using iterZ_perm iterF_perm.
  split.
  - intros q. rewrite (get_surmise_lookup iterZ iterF iterZ_perm).
    rewrite <- (elem_of_get_universe iterF iterF_perm).
    destruct (decide (q ∈ get_universe iterF sets)); [by split; eauto|].
    split; [by intros [? ?]|done].
  - intros q S [(_ & _ & Hbelow) (A & HA & Hq)]%get_surmise_entry ->.
    destruct (Hbelow A) as (M & []%not_elem_of_empty & _); [|done].
    by apply (elem_of_iterF iterF iterF_perm).
Qed.

(** X13: the entry of [q] in [get_surmise] holds the sets that
    [get_minimal_sets] returns on the members containing [q]. *)
Theorem get_surmise_get_minimal_sets (sets : family) (q : Z) (S : family) :
  get_surmise iterZ iterF sets !! q = Some S →
  S = list_to_set (get_minimal_sets (filter (λ A, q ∈ A) (iterF sets))).
Proof using iterZ_perm iterF_perm.
  intros [Hret _]%get_surmise_entry. apply set_eq. intros A.
  rewrite (retained_minimal q _ _ A Hret), elem_of_list_to_set,
    get_minimal_sets_firsts, elem_of_firsts_where, list_elem_of_filter.
  split.
  - intros (HA & Hq & Hmin). right. split; [done|].
    intros B [? ?]%list_elem_of_filter. by apply Hmin.
  - intros [?%elem_of_nil|[[Hq HA] Hmin]]; [done|]. split; [done|].
    split; [done|]. intros B HB HqB. apply Hmin.
    by apply list_elem_of_filter.
Qed.

(** ** More on projection *)

(** X14: projecting by [X] and then by [Y] is projecting by [X ∪ Y];
    projecting by the empty set changes nothing. *)
Theorem project_family_compose (sets : family) (X Y : pyset) :
  project_family iterF (project_family iterF sets X) Y
  = project_family iterF sets (X ∪ Y)
  ∧ project_family iterF sets ∅ = sets.
Proof using iterF_perm.
  clear iterZ iterZ_perm. split; apply set_eq; intros B.
  - rewrite !(elem_of_project_family iterF iterF_perm). split.
    + intros (A' & (A & HA & ->)%(elem_of_project_family iterF iterF_perm)
                & ->).
      exists A. split; [done|]. set_solver.
    + intros (A & HA & ->). exists (A ∖ X). split; [|set_solver].
      apply (elem_of_project_family iterF iterF_perm). by exists A.
  - rewrite (elem_of_project_family iterF iterF_perm). split.
    + intros (A & HA & ->). by rewrite (difference_empty_L A).
    + intros HB. exists B. by rewrite (difference_empty_L B).
Qed.

(** X15: the projection of a union-closed family is union-closed, and
    the projection of a family by one of its members has the empty
    set. *)
Theorem project_family_closed (sets : family) (X : pyset) :
  (union_closed sets → union_closed (project_family iterF sets X))
  ∧ (X ∈ sets → ∅ ∈ project_family iterF sets X).
Proof using iterF_perm.
  clear iterZ iterZ_perm. split.
  - intros Hclosed B1 B2
      (A1 & HA1 & ->)%(elem_of_project_family iterF iterF_perm)
      (A2 & HA2 & ->)%(elem_of_project_family iterF iterF_perm).
    apply (elem_of_project_family iterF iterF_perm). exists (A1 ∪ A2).
    split; [by apply Hclosed|]. set_solver.
  - intros HX. apply (elem_of_project_family iterF iterF_perm).
    exists X. split; [done|]. set_solver.
Qed.

Lemma generated_project_family (base : family) (X A : pyset) :
  generated (project_family iterF base X) A
  ↔ ∃ A', generated base A' ∧ A = A' ∖ X.
Proof using iterF_perm.
  clear iterZ iterZ_perm. split.
  - intros (m & l & Hne & _ & Hl & ->).
    assert (∃ l', l = (λ A, A ∖ X) <$> l' ∧ ∀ b, b ∈ l' → b ∈ base)
      as (l' & -> & Hl').
    { clear Hne. induction l as [|b l IH].
      { exists []. split; [done|]. by intros ? ?%elem_of_nil. }
      destruct IH as (l' & -> & Hl'); [intros ??; apply Hl; by right|].
      destruct (proj1 (elem_of_project_family iterF iterF_perm base X b))
        as (b' & Hb' & ->); [apply Hl; left|].
      exists (b' :: l'). split; [done|].
      intros ? [->|?]%elem_of_cons; auto. }
    exists (⋃ l'). split; [|apply union_list_difference].
    exists (length l'), l'. split; [by destruct l'|]. done.
  - intros (A' & (m & l & Hne & _ & Hl & ->) & ->).
    exists (length l), ((λ A, A ∖ X) <$> l). split; [by destruct l|].
    split; [by rewrite length_fmap|]. split.
    + intros b (b' & -> & Hb')%list_elem_of_fmap.
      apply (elem_of_project_family iterF iterF_perm). exists b'. auto.
    + by rewrite union_list_difference.
Qed.

(** X16: closing a projected base gives the projection of the closure
    of the base. *)
Theorem create_family_project_family (fuel fuel' : nat) (base F : family)
    (X : pyset) :
  create_family_from_base iterF fuel base = Some F →
  size (project_family iterF base X) ≤ fuel' →
  create_family_from_base iterF fuel' (project_family iterF base X)
  = Some (project_family iterF F X).
Proof using iterF_perm.
  intros Hrun Hfuel.
  pose proof (create_family_from_base_generated _ _ _ Hrun) as HF.
  destruct (create_family_from_base_spec iterF iterF_perm
              (project_family iterF base X)) as (F' & Hrun' & HF').
  apply (create_family_loop_mono iterF _ fuel') in Hrun'; [|done].
  unfold create_family_from_base. rewrite Hrun'. f_equal.
  apply set_eq. intros A.
  rewrite HF', generated_project_family,
    (elem_of_project_family iterF iterF_perm).
  by setoid_rewrite HF.
Qed.

(** ** More on the closure *)

(** X17: every set of the closure contains a set of the base; the
    closure has the elements of the base and no other, and has the empty
    set only if the base has it. *)
Theorem create_family_members (fuel : nat) (base F : family) :
  create_family_from_base iterF fuel base = Some F →
  (∀ A, A ∈ F → ∃ b, b ∈ base ∧ b ⊆ A)
  ∧ get_universe iterF F = get_universe iterF base
  ∧ (∅ ∈ F ↔ ∅ ∈ base).
Proof using iterF_perm.
  clear iterZ iterZ_perm. intros Hrun.
  pose proof (create_family_from_base_generated _ _ _ Hrun) as HF.
  assert (∀ A, A ∈ F → ∃ b, b ∈ base ∧ b ⊆ A) as Hhas.
  { intros A (m & [|b l] & Hne & _ & Hl & ->)%HF; [done|].
    exists b. split; [apply Hl; left|].
    intros x ?. apply elem_of_union_list. exists b. split; [left|done]. }
  split; [done|]. split.
  - apply set_eq. intros q.
    rewrite !(elem_of_get_universe iterF iterF_perm). split.
    + intros (A & (m & l & _ & _ & Hl & ->)%HF
                & (b & Hb & Hq)%elem_of_union_list).
      exists b. auto.
    + intros (b & Hb & Hq). exists b. split; [|done].
      by apply HF, generated_base.
  - split.
    + intros (b & Hb & Hsub)%Hhas.
      by assert (b = ∅) as <- by set_solver.
    + intros ?. by apply HF, generated_base.
Qed.

(** X18: a larger base gives a larger closure. *)
Theorem create_family_mono (fuel fuel' : nat) (base base' F F' : family) :
  base ⊆ base' →
  create_family_from_base iterF fuel base = Some F →
  create_family_from_base iterF fuel' base' = Some F' →
  F ⊆ F'.
Proof using iterF_perm.
  intros Hsub Hrun Hrun' A HA.
  apply (create_family_from_base_generated _ _ _ Hrun'),
    (generated_mono base); [done|].
  by apply (create_family_from_base_generated _ _ _ Hrun).
Qed.

(** ** Element counts *)

Lemma count_elements_spec (uc_fam : family) (X : pyset) :
  ∃ count_dict,
    count_elements iterZ iterF uc_fam X = Some count_dict
    ∧ ∀ b, count_dict !! b
           = if decide (b ∈ X)
             then Some (size (filter (λ a, b ∈ a) uc_fam)) else None.
Proof using iterZ_perm iterF_perm.
  unfold count_elements.
  destruct (count_elements_outer (iterZ X) (iterF uc_fam)
              (foldl (λ d b, <[b := 0]> d) ∅ (iterZ X)))
    as (d & -> & Hd).
  { apply (NoDup_iterZ iterZ iterZ_perm). }
  { intros b Hb. rewrite (lookup_foldl_insert (λ _, 0)).
    rewrite decide_True by done. eauto. }
  exists d. split; [done|].
  intros b. rewrite Hd, (lookup_foldl_insert (λ _, 0)), lookup_empty.
  destruct (decide (b ∈ iterZ X)) as [Hb|Hb];
    rewrite (elem_of_iterZ iterZ iterZ_perm) in Hb.
  - rewrite decide_True by done. cbn. f_equal.
    by apply size_filter_perm.
  - by rewrite decide_False by done.
Qed.

(** X19: [count_elements] never looks up a key that is not there; it
    returns a dict whose keys are the elements of [X], each with the
    number of members that contain it. *)
Theorem count_elements_correct (uc_fam : family) (X : pyset) :
  ∃ count_dict,
    count_elements iterZ iterF uc_fam X = Some count_dict
    ∧ dom count_dict = X
    ∧ ∀ b, b ∈ X →
           count_dict !! b = Some (size (filter (λ a, b ∈ a) uc_fam)).
Proof using iterZ_perm iterF_perm.
  destruct (count_elements_spec uc_fam X) as (d & Hrun & Hlookup).
  exists d. split; [done|]. split.
  - apply set_eq. intros b. rewrite elem_of_dom, Hlookup.
    destruct (decide (b ∈ X)); [by split; eauto|].
    split; [by intros [? ?]|done].
  - intros b Hb. by rewrite Hlookup, decide_True.
Qed.

(** ** Verdicts as properties of the family *)

Lemma has_unique_atoms_true (sets : family) :
  has_unique_atoms iterZ iterF sets = true
  ↔ atoms_unshared (get_surmise iterZ iterF sets).
Proof using iterZ_perm iterF_perm.
  unfold has_unique_atoms.
  rewrite (count_atoms_spec iterZ iterF).
  rewrite <- (atoms_unshared_NoDup iterZ iterF iterZ_perm iterF_perm),
    <- NoDup_size_list_to_set.
  case_bool_decide; split; done.
Qed.

Lemma is_well_graded_true (sets base : family) :
  (is_well_graded iterZ iterF sets base).2 = true
  ↔ ∀ b, b ∈ base →
         has_unique_atoms iterZ iterF (project_family iterF sets b) = true.
Proof using iterF_perm.
  unfold is_well_graded.
  destruct (is_well_graded_loop_spec iterZ iterF sets (iterF base)
              ["Checking if each projection is well-graded..."])
    as [[Hall ->]|(bs1 & b & bs2 & Hbase & Hall & Hfail & ->)];
    cbn [fst snd].
  - split; [|done]. intros _ b ?.
    by apply Hall, (elem_of_iterF iterF iterF_perm).
  - split; [done|]. intros Hok. rewrite Hok in Hfail; [done|].
    apply (elem_of_iterF iterF iterF_perm).
    rewrite Hbase, elem_of_app. right. left.
Qed.

(** X24: a base of [n] sets has a closure of at most [2 ^ n - 1]
    sets. *)
Theorem create_family_size (fuel : nat) (base F : family) :
  create_family_from_base iterF fuel base = Some F →
  size F ≤ 2 ^ size base - 1.
Proof using iterF_perm.
  clear iterZ iterZ_perm. intros Hrun.
  pose proof (create_family_from_base_generated _ _ _ Hrun) as HF.
  change (size base) with (length (elements base)).
  rewrite <- (length_nonempty_unions (elements base)).
  etrans; [|apply (size_list_to_set_le (nonempty_unions (elements base)))].
  apply subseteq_size. intros A HA%HF.
  by apply elem_of_list_to_set, generated_nonempty_unions.
Qed.

(** X25: the families that [is_well_graded] hands to [has_unique_atoms]
    when it is run on a closure and its base are union-closed and have
    the empty set, as its docstring says. *)
Theorem project_family_create_family (fuel : nat) (base F : family)
    (b : pyset) :
  create_family_from_base iterF fuel base = Some F → b ∈ base →
  ∅ ∈ project_family iterF F b
  ∧ union_closed (project_family iterF F b).
Proof using iterF_perm.
  clear iterZ iterZ_perm. intros Hrun Hb.
  pose proof (create_family_from_base_generated _ _ _ Hrun) as HF. split.
  - apply (elem_of_project_family iterF iterF_perm). exists b.
    split; [by apply HF, generated_base|]. set_solver.
  - intros B1 B2
      (A1 & HA1 & ->)%(elem_of_project_family iterF iterF_perm)
      (A2 & HA2 & ->)%(elem_of_project_family iterF iterF_perm).
    apply (elem_of_project_family iterF iterF_perm). exists (A1 ∪ A2).
    split; [|set_solver]. apply HF, generated_union; by apply HF.
Qed.
End Correctness_rest.

(** * Writing a family *)

(** ** The stable sort *)

Lemma insert_by_perm {A} (key : A → nat) (x : A) (l : list A) :
  insert_by key x l ≡ₚ x :: l.
Proof.
  induction l as [|y l IH]; [done|]. cbn [insert_by].
  destruct (decide (key x ≤ key y)); [done|].
  rewrite IH. apply Permutation_swap.
Qed.

Lemma sort_by_perm {A} (key : A → nat) (l : list A) : sort_by key l ≡ₚ l.
Proof.
  induction l as [|x l IH]; [done|]. unfold sort_by. cbn [foldr].
  fold (sort_by key l). by rewrite insert_by_perm, IH.
Qed.

Lemma insert_by_sorted {A} (key : A → nat) (x : A) (l : list A) :
  Sorted (λ a b, key a ≤ key b) l →
  Sorted (λ a b, key a ≤ key b) (insert_by key x l).
Proof.
  induction 1 as [|y l Hl IH Hhd]; cbn [insert_by].
  - by repeat constructor.
  - destruct (decide (key x ≤ key y)).
    + by repeat constructor.
    + constructor; [done|]. destruct Hhd as [|z l Hyz]; cbn [insert_by].
      * constructor. lia.
      * destruct (decide (key x ≤ key z)); constructor; [lia|done].
Qed.

Lemma sort_by_sorted {A} (key : A → nat) (l : list A) :
  StronglySorted (λ a b, key a ≤ key b) (sort_by key l).
Proof.
  apply Sorted_StronglySorted.
  - intros a b c ??. lia.
  - induction l as [|x l IH]; [constructor|]. by apply insert_by_sorted.
Qed.

Lemma filter_insert_by {A} (key : A → nat) (x : A) (l : list A)
    (k : nat) :
  filter (λ a, key a = k) (insert_by key x l)
  = filter (λ a, key a = k) (x :: l).
Proof.
  induction l as [|y l IH]; [done|]. cbn [insert_by].
  destruct (decide (key x ≤ key y)) as [Hle|Hlt]; [done|].
  rewrite (filter_cons _ y (insert_by key x l)), IH, !filter_cons.
  destruct (decide (key x = k)) as [Hx|Hx]; [|done].
  destruct (decide (key y = k)); [lia|done].
Qed.

Lemma sort_by_stable {A} (key : A → nat) (l : list A) (k : nat) :
  filter (λ a, key a = k) (sort_by key l) = filter (λ a, key a = k) l.
Proof.
  induction l as [|x l IH]; [done|]. unfold sort_by. cbn [foldr].
  fold (sort_by key l). by rewrite filter_insert_by, !filter_cons, IH.
Qed.

(** ** Lines *)

Lemma pretty_N_char_comma (x : N) : pretty_N_char x ≠ ","%char.
Proof. unfold pretty_N_char. by repeat case_match. Qed.

Lemma pretty_N_go_field (x : N) (s : string) :
  s ≠ EmptyString → comma_free s →
  pretty_N_go x s ≠ EmptyString ∧ comma_free (pretty_N_go x s).
Proof.
  revert s. induction (N.lt_wf_0 x) as [x _ IH]; intros s Hne Hfree.
  assert (x = 0 ∨ 0 < x)%N as [->|Hpos] by lia.
  - by rewrite pretty_N_go_0.
  - rewrite pretty_N_go_step by done. apply IH.
    + by apply N.div_lt.
    + done.
    + split; [apply pretty_N_char_comma|done].
Qed.

Lemma pretty_N_field (x : N) :
  pretty x ≠ EmptyString ∧ comma_free (pretty x).
Proof.
  unfold pretty, pretty_N. case_decide as Hx.
  - split; [done|]. by repeat split.
  - rewrite pretty_N_go_step by lia. apply pretty_N_go_field; [done|].
    split; [apply pretty_N_char_comma|done].
Qed.

Lemma pretty_Z_field (z : Z) :
  pretty z ≠ EmptyString ∧ comma_free (pretty z).
Proof.
  destruct z as [|p|p]; unfold pretty, pretty_Z.
  - split; [done|]. by repeat split.
  - apply pretty_N_field.
  - split; [done|]. split; [done|]. apply pretty_N_field.
Qed.

Lemma comma_split (x x' r r' : string) :
  comma_free x → comma_free x' →
  x +:+ String "," r = x' +:+ String "," r' → x = x' ∧ r = r'.
Proof.
  revert x'. induction x as [|c x IH]; intros [|c' x'] Hx Hx' Heq;
    cbn in *.
  - by injection Heq as ->.
  - injection Heq as <- _. by destruct Hx' as [[] _].
  - injection Heq as -> _. by destruct Hx as [[] _].
  - injection Heq as -> Heq. destruct Hx as [_ Hx], Hx' as [_ Hx'].
    destruct (IH x' Hx Hx' Heq) as [-> ->]. done.
Qed.

Lemma comma_absent (x x' r : string) :
  comma_free x → x ≠ x' +:+ String "," r.
Proof.
  revert x. induction x' as [|c x' IH]; intros [|c' x] Hx Heq;
    cbn in *; try done.
  - injection Heq as -> _. by destruct Hx as [[] _].
  - injection Heq as -> Heq. destruct Hx as [_ Hx]. by apply (IH x).
Qed.

Lemma join_comma_inj (l1 l2 : list string) :
  (∀ x, x ∈ l1 → x ≠ EmptyString ∧ comma_free x) →
  (∀ x, x ∈ l2 → x ≠ EmptyString ∧ comma_free x) →
  join "," l1 = join "," l2 → l1 = l2.
Proof.
  unfold join. revert l2.
  induction l1 as [|x [|y l1] IH]; intros [|x' [|y' l2]] H1 H2 Heq;
    cbn in Heq; try done.
  - destruct (H2 x') as [[] _]; [left|done].
  - destruct (H2 x') as [Hne _]; [left|]. destruct x'; done.
  - destruct (H1 x) as [[] _]; [left|done].
  - by rewrite Heq.
  - destruct (H1 x) as [_ Hx]; [left|].
    by destruct (comma_absent _ _ _ Hx Heq).
  - destruct (H1 x) as [Hne _]; [left|]. destruct x; done.
  - destruct (H2 x') as [_ Hx']; [left|].
    by destruct (comma_absent _ _ _ Hx' (eq_sym Heq)).
  - destruct (H1 x) as [_ Hx]; [left|]. destruct (H2 x') as [_ Hx']; [left|].
    destruct (comma_split _ _ _ _ Hx Hx' Heq) as [-> Hrest]. f_equal.
    apply IH; [| |done]; intros z ?; [apply H1|apply H2]; by right.
Qed.

Lemma append_newline_inj (s1 s2 : string) :
  s1 +:+ newline = s2 +:+ newline → s1 = s2.
Proof.
  revert s2.
  induction s1 as [|c s1 IH]; intros [|c' s2] Heq; cbn in *.
  - done.
  - injection Heq as _ Heq. by destruct s2.
  - injection Heq as _ Heq. by destruct s1.
  - injection Heq as -> Heq. f_equal. by apply IH.
Qed.

Lemma sorted_line_inj (A B : pyset) : sorted_line A = sorted_line B → A = B.
Proof.
  unfold sorted_line. intros Heq%append_newline_inj.
  apply join_comma_inj in Heq.
  - apply (inj (fmap pretty)) in Heq.
    rewrite <- (list_to_set_elements_L A), <- (list_to_set_elements_L B).
    apply set_eq. intros x. rewrite !elem_of_list_to_set.
    by rewrite <- (merge_sort_Permutation Z.le (elements A)), Heq,
      merge_sort_Permutation.
  - intros x (z & -> & _)%list_elem_of_fmap. apply pretty_Z_field.
  - intros x (z & -> & _)%list_elem_of_fmap. apply pretty_Z_field.
Qed.

(** ** The file *)

Section Writing.
Context (iterZ : gset Z → list Z) (iterF : gset (gset Z) → list (gset Z)).
Hypothesis iterZ_perm : ∀ s, iterZ s ≡ₚ elements s.
Hypothesis iterF_perm : ∀ F, iterF F ≡ₚ elements F.

Lemma write_family_to_file_lines (uc_fam : family) :
  write_family_to_file iterZ iterF uc_fam
  = sorted_line <$> sort_by size (iterF uc_fam).
Proof using iterZ_perm.
  unfold write_family_to_file, sorted_line. apply list_fmap_ext.
  intros _ A _. do 3 f_equal. apply (Sorted_unique Z.le).
  - apply (Sorted_merge_sort Z.le).
  - apply (Sorted_merge_sort Z.le).
  - by rewrite !merge_sort_Permutation.
Qed.

(** X22: the file has one line for each member, members of fewer
    elements first and members of equal size in the order they are
    visited; a line lists the elements in ascending order, whatever the
    order in which the set is visited. *)
Theorem write_family_to_file_sorted (uc_fam : family) :
  ∃ fam_list,
    write_family_to_file iterZ iterF uc_fam = sorted_line <$> fam_list
    ∧ fam_list ≡ₚ elements uc_fam
    ∧ StronglySorted (λ A B, size A ≤ size B) fam_list
    ∧ (∀ k, filter (λ A, size A = k) fam_list
            = filter (λ A, size A = k) (iterF uc_fam))
    ∧ length (write_family_to_file iterZ iterF uc_fam) = size uc_fam.
Proof using iterZ_perm iterF_perm.
  exists (sort_by size (iterF uc_fam)).
  split; [apply write_family_to_file_lines|].
  split; [by rewrite sort_by_perm|]. split; [apply sort_by_sorted|].
  split; [intros k; apply sort_by_stable|].
  rewrite write_family_to_file_lines, length_fmap, sort_by_perm.
  apply (length_iterF iterF iterF_perm).
Qed.

Lemma elem_of_write_family_to_file (uc_fam : family) (line : string) :
  line ∈ write_family_to_file iterZ iterF uc_fam
  ↔ ∃ A, A ∈ uc_fam ∧ line = sorted_line A.
Proof using iterZ_perm iterF_perm.
  rewrite write_family_to_file_lines, list_elem_of_fmap.
  setoid_rewrite sort_by_perm.
  setoid_rewrite (elem_of_iterF iterF iterF_perm). naive_solver.
Qed.
End Writing.

(** * The visiting order does not matter *)

Section Orders.
Context (iterZ iterZ' : gset Z → list Z).
Context (iterF iterF' : gset (gset Z) → list (gset Z)).
Hypothesis iterZ_perm : ∀ s, iterZ s ≡ₚ elements s.
Hypothesis iterZ'_perm : ∀ s, iterZ' s ≡ₚ elements s.
Hypothesis iterF_perm : ∀ F, iterF F ≡ₚ elements F.
Hypothesis iterF'_perm : ∀ F, iterF' F ≡ₚ elements F.

Lemma project_family_order (sets : family) (X : pyset) :
  project_family iterF sets X = project_family iterF' sets X.
Proof using iterF_perm iterF'_perm.
  apply set_eq. intros B.
  by rewrite (elem_of_project_family iterF iterF_perm),
    (elem_of_project_family iterF' iterF'_perm).
Qed.

Lemma union_pass_order (base uc_fam : family) :
  union_pass iterF base uc_fam = union_pass iterF' base uc_fam.
Proof using iterF_perm iterF'_perm.
  apply set_eq. intros A.
  by rewrite (elem_of_union_pass iterF iterF_perm),
    (elem_of_union_pass iterF' iterF'_perm).
Qed.

Lemma create_family_loop_order (fuel : nat) (base uc_fam : family)
    (curr_size prev_size : nat) :
  create_family_loop iterF fuel base uc_fam curr_size prev_size
  = create_family_loop iterF' fuel base uc_fam curr_size prev_size.
Proof using iterF_perm iterF'_perm.
  revert uc_fam curr_size prev_size.
  induction fuel as [|fuel IH]; intros uc_fam curr_size prev_size;
    rewrite (create_family_loop_unfold iterF),
      (create_family_loop_unfold iterF'); [done|].
  case_bool_decide; [|done]. by rewrite union_pass_order, IH.
Qed.

Lemma get_surmise_order (sets : family) :
  get_surmise iterZ iterF sets = get_surmise iterZ' iterF' sets.
Proof using iterZ_perm iterZ'_perm iterF_perm iterF'_perm.
  apply map_eq. intros q.
  rewrite (get_surmise_lookup iterZ iterF iterZ_perm),
    (get_surmise_lookup iterZ' iterF' iterZ'_perm).
  assert (get_universe iterF sets = get_universe iterF' sets) as <-.
  { apply set_eq. intros x.
    by rewrite (elem_of_get_universe iterF iterF_perm),
      (elem_of_get_universe iterF' iterF'_perm). }
  destruct (decide (q ∈ get_universe iterF sets)); [|done]. f_equal.
  apply set_eq. intros A.
  rewrite (retained_minimal q _ _ A
             (surmise_fold_retained iterF iterF_perm q (iterF sets))),
    (retained_minimal q _ _ A
       (surmise_fold_retained iterF' iterF'_perm q (iterF' sets))).
  rewrite (elem_of_iterF iterF iterF_perm),
    (elem_of_iterF iterF' iterF'_perm).
  setoid_rewrite (elem_of_iterF iterF iterF_perm).
  by setoid_rewrite (elem_of_iterF iterF' iterF'_perm).
Qed.

Lemma has_unique_atoms_order (sets : family) :
  has_unique_atoms iterZ iterF sets = has_unique_atoms iterZ' iterF' sets.
Proof using iterZ_perm iterZ'_perm iterF_perm iterF'_perm.
  apply eq_true_iff_eq.
  rewrite (has_unique_atoms_true iterZ iterF iterZ_perm iterF_perm),
    (has_unique_atoms_true iterZ' iterF' iterZ'_perm iterF'_perm).
  by rewrite get_surmise_order.
Qed.

(** X20: the families and the surmise system that the module computes
    do not depend on the order in which Python visits the sets. *)
Theorem results_order_independent (sets : family) (X : pyset) :
  project_family iterF sets X = project_family iterF' sets X
  ∧ get_surmise iterZ iterF sets = get_surmise iterZ' iterF' sets
  ∧ get_base iterZ iterF sets = get_base iterZ' iterF' sets
  ∧ (∀ fuel, create_family_from_base iterF fuel sets
             = create_family_from_base iterF' fuel sets)
  ∧ count_elements iterZ iterF sets X = count_elements iterZ' iterF' sets X.
Proof using iterZ_perm iterZ'_perm iterF_perm iterF'_perm.
  split; [apply project_family_order|]. split; [apply get_surmise_order|].
  split; [|split].
  - rewrite (get_base_atoms iterZ iterF iterZ_perm iterF_perm),
      (get_base_atoms iterZ' iterF' iterZ'_perm iterF'_perm).
    by rewrite get_surmise_order.
  - intros fuel. apply create_family_loop_order.
  - destruct (count_elements_spec iterZ iterF iterZ_perm iterF_perm sets X)
      as (d & -> & Hd).
    destruct (count_elements_spec iterZ' iterF' iterZ'_perm iterF'_perm
                sets X) as (d' & -> & Hd').
    f_equal. apply map_eq. intros b. by rewrite Hd, Hd'.
Qed.

(** X21: nor do the verdicts of the predicates. *)
Theorem verdicts_order_independent (sets base : family) (X : pyset) :
  is_union_closed iterF sets = is_union_closed iterF' sets
  ∧ is_intersection_closed iterF sets = is_intersection_closed iterF' sets
  ∧ is_X_closed iterF sets X = is_X_closed iterF' sets X
  ∧ has_unique_atoms iterZ iterF sets = has_unique_atoms iterZ' iterF' sets
  ∧ (is_well_graded iterZ iterF sets base).2
    = (is_well_graded iterZ' iterF' sets base).2.
Proof using iterZ_perm iterZ'_perm iterF_perm iterF'_perm.
  split; [|split; [|split; [|split]]]; try apply eq_true_iff_eq.
  - by rewrite (is_union_closed_true iterF iterF_perm),
      (is_union_closed_true iterF' iterF'_perm).
  - unfold is_intersection_closed.
    rewrite (pair_loop_true iterF iterF_perm),
      (pair_loop_true iterF' iterF'_perm); [done|..];
      intros A B r; by case_bool_decide; intros [= <-].
  - by rewrite (is_X_closed_true iterF iterF_perm),
      (is_X_closed_true iterF' iterF'_perm).
  - by rewrite has_unique_atoms_order.
  - rewrite (is_well_graded_true iterZ iterF iterF_perm),
      (is_well_graded_true iterZ' iterF' iterF'_perm).
    split; intros Hall b Hb; specialize (Hall b Hb).
    + by rewrite <- project_family_order, <- has_unique_atoms_order.
    + by rewrite project_family_order, has_unique_atoms_order.
Qed.
(** X23: the lines of the file determine the family: no two members
    have the same line, and two families with the same lines are
    equal. *)
Theorem write_family_to_file_inj (F1 F2 : family) :
  NoDup (write_family_to_file iterZ iterF F1)
  ∧ ((∀ line, line ∈ write_family_to_file iterZ iterF F1
              ↔ line ∈ write_family_to_file iterZ' iterF' F2) →
     F1 = F2).
Proof using iterZ_perm iterZ'_perm iterF_perm iterF'_perm.
  split.
  - rewrite (write_family_to_file_lines iterZ iterF iterZ_perm).
    apply NoDup_fmap_2_strong.
    + intros A B _ _. apply sorted_line_inj.
    + rewrite sort_by_perm. apply (NoDup_iterF iterF iterF_perm).
  - intros Hlines. apply set_eq. intros A. split; intros HA.
    + assert (sorted_line A ∈ write_family_to_file iterZ' iterF' F2)
        as (B & HB & ->%sorted_line_inj)%(elem_of_write_family_to_file
                                            iterZ' iterF' iterZ'_perm
                                            iterF'_perm); [|done].
      apply Hlines,
        (elem_of_write_family_to_file iterZ iterF iterZ_perm iterF_perm).
      eauto.
    + assert (sorted_line A ∈ write_family_to_file iterZ iterF F1)
        as (B & HB & ->%sorted_line_inj)%(elem_of_write_family_to_file
                                            iterZ iterF iterZ_perm
                                            iterF_perm); [|done].
      apply Hlines,
        (elem_of_write_family_to_file iterZ' iterF' iterZ'_perm
           iterF'_perm).
      eauto.
Qed.
End Orders.

(** * The model at concrete inputs *)

(** A decidable statement about concrete sets is settled by running its
    decision procedure. *)
Ltac by_evaluation :=
  match goal with
  | |- ?P => apply (bool_decide_eq_true_1 P); vm_compute; reflexivity
  end.

Lemma slot_order_perm (s : pyset) : slot_order s ≡ₚ elements s.
Proof. apply merge_sort_Permutation. Qed.

Lemma elements_perm `{Countable B} (X : gset B) : elements X ≡ₚ elements X.
Proof. reflexivity. Qed.

(** The printed name is the ascending one whenever the set is visited
    in ascending order. *)
Lemma curr_proj_str_sorted (iterZ : gset Z → list Z) (b : pyset) :
  iterZ b ≡ₚ elements b → Sorted Z.le (iterZ b) →
  curr_proj_str iterZ b = sorted_proj_str b.
Proof.
  intros Hperm Hsorted. unfold curr_proj_str, sorted_proj_str.
  assert (iterZ b = merge_sort Z.le (elements b)) as ->; [|done].
  apply (Sorted_unique Z.le); [done| |].
  - apply (Sorted_merge_sort Z.le).
  - by rewrite merge_sort_Permutation.
Qed.

(** C8: on the base set [{4, 5, 6, 10}], visited by residue modulo 8,
    [is_well_graded] prints the projection as [F\{10,4,5,6}]; the name
    with the elements in ascending order is [F\{4,5,6,10}]. *)
Theorem is_well_graded_line_unsorted :
  is_well_graded slot_order elements {[ex_slots]} {[ex_slots]}
  = (["Checking if each projection is well-graded...";
      "F" +:+ backslash +:+ "{10,4,5,6} is well-graded"], true)
  ∧ sorted_proj_str ex_slots = "F" +:+ backslash +:+ "{4,5,6,10}"
  ∧ curr_proj_str slot_order ex_slots ≠ sorted_proj_str ex_slots.
Proof.
  split; [by vm_compute|]. split; [by vm_compute|]. by vm_compute.
Qed.

Example create_family_from_base_ex :
  create_family_from_base elements 2 ex_base
  = Some ({[ {[1]}; {[2]}; {[1; 2]} ]})%Z.
Proof. by_evaluation. Qed.

(** [{1,2,3} ∩ {1,2,4} = {1,2}] strictly contains [{1}] and is not a
    member: the first pair tested is the last. *)
Example is_X_closed_ex :
  is_X_closed elements ({[ {[1; 2; 3]}; {[1; 2; 4]} ]})%Z {[1%Z]} = false
  ∧ length (is_X_closed_visited elements
              ({[ {[1; 2; 3]}; {[1; 2; 4]} ]})%Z {[1%Z]}) = 1
  ∧ is_X_closed elements ex_chain {[1%Z]} = true.
Proof. by_evaluation. Qed.

Example has_unique_atoms_ex :
  has_unique_atoms elements elements ex_chain = true
  ∧ has_unique_atoms elements elements ex_family = false.
Proof. split; by vm_compute. Qed.

Lemma project_family_size_idem_witness :
  size (project_family elements ex_family {[2%Z]}) ≤ size ex_family
  ∧ project_family elements (project_family elements ex_family {[2%Z]})
      {[2%Z]}
    = project_family elements ex_family {[2%Z]}.
Proof.
  apply (project_family_size_idem elements). intros F. reflexivity.
Defined.

Lemma project_family_disjoint_witness :
  ({[1%Z]} : gset Z) ∈ project_family elements ex_family {[2%Z]}
  ∧ ({[1%Z]} : gset Z) ∩ {[2%Z]} = ∅.
Proof.
  assert (({[1%Z]} : gset Z) ∈ project_family elements ex_family {[2%Z]})
    as Hin by (vm_compute; reflexivity).
  split; [exact Hin|].
  apply (project_family_disjoint elements) with (sets := ex_family);
    [intros F; reflexivity|exact Hin].
Defined.

Lemma create_family_from_base_closure_witness :
  ∃ F,
    (∀ fuel, size ex_base ≤ fuel →
             create_family_from_base elements fuel ex_base = Some F)
    ∧ (∀ fuel F', create_family_from_base elements fuel ex_base = Some F' →
                  F' = F)
    ∧ ex_base ⊆ F
    ∧ union_closed F
    ∧ (∀ G, ex_base ⊆ G → union_closed G → F ⊆ G).
Proof.
  apply (create_family_from_base_closure elements). intros F. reflexivity.
Defined.

Lemma create_family_from_base_idempotent_witness :
  size ex_base ≤ 2 ∧ 1 ≤ 1
  ∧ ∃ F, create_family_from_base elements 2 ex_base = Some F
         ∧ create_family_from_base elements 1 F = Some F.
Proof.
  assert (size ex_base ≤ 2) as Hfuel by (vm_compute; lia).
  assert (1 ≤ 1) as Hfuel' by lia.
  split; [exact Hfuel|]. split; [exact Hfuel'|].
  apply (create_family_from_base_idempotent elements);
    [intros F; reflexivity|exact Hfuel|exact Hfuel'].
Defined.

Lemma is_X_closed_correct_witness :
  (is_X_closed elements ex_family {[1%Z]} = true
   ↔ ∀ A B, A ∈ ex_family → B ∈ ex_family → A ≠ B →
            {[1%Z]} ⊂ A ∩ B → A ∩ B ∈ ex_family)
  ∧ (is_X_closed elements ex_family {[1%Z]} = false →
     ∃ l A B,
       is_X_closed_visited elements ex_family {[1%Z]} = l ++ [(A, B)]
       ∧ A ∈ ex_family ∧ B ∈ ex_family ∧ A ≠ B
       ∧ {[1%Z]} ⊂ A ∩ B ∧ (A ∩ B ∉ ex_family)
       ∧ ∀ A' B', (A', B') ∈ l → {[1%Z]} ⊂ A' ∩ B' → A' ∩ B' ∈ ex_family).
Proof.
  apply (is_X_closed_correct elements). intros F. reflexivity.
Defined.

Lemma get_surmise_minimal_witness :
  (∃ A, A ∈ ex_chain ∧ 2%Z ∈ A)
  ∧ ∃ S, get_surmise elements elements ex_chain !! 2%Z = Some S
         ∧ (∀ A, A ∈ S ↔
                 A ∈ ex_chain ∧ 2%Z ∈ A
                 ∧ ∀ B, B ∈ ex_chain → 2%Z ∈ B → ¬ B ⊂ A)
         ∧ (∀ A B, A ∈ S → B ∈ S → A ⊆ B → A = B).
Proof.
  assert (∃ A, A ∈ ex_chain ∧ 2%Z ∈ A) as Hq.
  { exists ({[1; 2]})%Z. split; vm_compute; reflexivity. }
  split; [exact Hq|].
  apply (get_surmise_minimal elements elements);
    [intros s; reflexivity|intros F; reflexivity|exact Hq].
Defined.

Lemma has_unique_atoms_correct_witness :
  (has_unique_atoms elements elements ex_chain = true
   ↔ size (surmise_assocs (get_surmise elements elements ex_chain))
     = size (surmise_atoms (get_surmise elements elements ex_chain)))
  ∧ (size (surmise_assocs (get_surmise elements elements ex_chain))
     = size (surmise_atoms (get_surmise elements elements ex_chain))
     ↔ atoms_unshared (get_surmise elements elements ex_chain)).
Proof.
  apply (has_unique_atoms_correct elements elements);
    [intros s; reflexivity|intros F; reflexivity].
Defined.

Lemma is_well_graded_correct_witness :
  ((is_well_graded elements elements ex_family ex_base).2 = true
   ↔ ∀ b, b ∈ ex_base →
          has_unique_atoms elements elements
            (project_family elements ex_family b) = true)
  ∧ ((is_well_graded elements elements ex_family ex_base).2 = true →
     (is_well_graded elements elements ex_family ex_base).1
     = "Checking if each projection is well-graded..."
         :: (pass_line elements <$> elements ex_base))
  ∧ ((is_well_graded elements elements ex_family ex_base).2 = false →
     ∃ bs1 b bs2,
       elements ex_base = bs1 ++ b :: bs2
       ∧ (∀ b', b' ∈ bs1 →
            has_unique_atoms elements elements
              (project_family elements ex_family b') = true)
       ∧ has_unique_atoms elements elements
           (project_family elements ex_family b) = false
       ∧ (is_well_graded elements elements ex_family ex_base).1
         = "Checking if each projection is well-graded..."
             :: (pass_line elements <$> bs1) ++ [error_line elements b]).
Proof.
  apply (is_well_graded_correct elements elements). intros F. reflexivity.
Defined.

Lemma is_well_graded_empty_base_witness :
  is_well_graded elements elements ex_family ∅
  = (["Checking if each projection is well-graded..."], true).
Proof.
  apply (is_well_graded_empty_base elements elements). intros F.
  reflexivity.
Defined.


(** ** The other functions at concrete inputs *)

Lemma reverse_order_perm (F : family) : reverse_order F ≡ₚ elements F.
Proof. apply reverse_Permutation. Qed.

Example get_minimal_sets_ex :
  get_minimal_sets [{[1]}; {[1; 2]}; {[3]}; {[1]}]%Z = [{[1]}; {[3]}]%Z.
Proof. by_evaluation. Qed.

Example count_elements_ex :
  count_elements elements elements ex_family ({[1; 2; 3]})%Z
  = Some (<[1%Z := 2]> (<[2%Z := 2]> (<[3%Z := 2]> ∅))).
Proof. by_evaluation. Qed.

Example write_family_to_file_ex :
  write_family_to_file slot_order reverse_order
    ({[ {[4; 5; 6; 10]}; ∅; {[2; 1]} ]})%Z
  = [newline; "1,2" +:+ newline; "4,5,6,10" +:+ newline].
Proof. by_evaluation. Qed.

Lemma ex_closure_run :
  create_family_from_base elements 2 ex_base = Some ex_closure.
Proof. by_evaluation. Qed.

Lemma ex_closure_closed : union_closed ex_closure.
Proof.
  apply (is_union_closed_true elements); [intros F; reflexivity|].
  vm_compute. reflexivity.
Qed.

Lemma is_union_closed_correct_witness :
  (is_union_closed elements ex_family = true ↔ union_closed ex_family)
  ∧ (size ex_family ≤ 1 → is_union_closed elements ex_family = true).
Proof.
  apply (is_union_closed_correct elements). intros F. reflexivity.
Defined.

Lemma is_intersection_closed_correct_witness :
  is_intersection_closed elements ex_chain = true
  ↔ ∀ A B, A ∈ ex_chain → B ∈ ex_chain → A ∩ B ∈ ex_chain.
Proof.
  apply (is_intersection_closed_correct elements). intros F. reflexivity.
Defined.

Lemma is_X_closed_of_intersection_closed_witness :
  is_intersection_closed elements ex_chain = true
  ∧ is_X_closed elements ex_chain {[1%Z]} = true.
Proof.
  assert (is_intersection_closed elements ex_chain = true) as Hcap
    by (vm_compute; reflexivity).
  split; [exact Hcap|].
  apply (is_X_closed_of_intersection_closed elements);
    [intros F; reflexivity|exact Hcap].
Defined.

Lemma is_X_closed_mono_witness :
  ({[1%Z]} : gset Z) ⊆ ({[1; 3]})%Z
  ∧ is_X_closed elements ex_family {[1%Z]} = true
  ∧ is_X_closed elements ex_family ({[1; 3]})%Z = true.
Proof.
  assert (({[1%Z]} : gset Z) ⊆ ({[1; 3]})%Z) as Hsub by by_evaluation.
  assert (is_X_closed elements ex_family {[1%Z]} = true) as Hclosed
    by (vm_compute; reflexivity).
  split; [exact Hsub|]. split; [exact Hclosed|].
  apply (is_X_closed_mono elements) with (X := {[1%Z]});
    [intros F; reflexivity|exact Hsub|exact Hclosed].
Defined.

Lemma is_union_closed_create_family_witness :
  create_family_from_base elements 2 ex_base = Some ex_closure
  ∧ is_union_closed elements ex_closure = true.
Proof.
  split; [exact ex_closure_run|].
  apply (is_union_closed_create_family elements) with (fuel := 2)
    (base := ex_base); [intros F; reflexivity|exact ex_closure_run].
Defined.

Lemma get_base_correct_witness :
  (∀ A, A ∈ get_base elements elements ex_chain
        ↔ ∃ q, A ∈ ex_chain ∧ q ∈ A
               ∧ ∀ B, B ∈ ex_chain → q ∈ B → ¬ B ⊂ A)
  ∧ get_base elements elements ex_chain ⊆ ex_chain
  ∧ ∅ ∉ get_base elements elements ex_chain.
Proof.
  apply (get_base_correct elements elements);
    [intros s; reflexivity|intros F; reflexivity].
Defined.

Lemma get_base_create_family_witness :
  create_family_from_base elements 2 ex_base = Some ex_closure
  ∧ get_base elements elements ex_closure ⊆ ex_base.
Proof.
  split; [exact ex_closure_run|].
  apply (get_base_create_family elements elements) with (fuel := 2);
    [intros s; reflexivity|intros F; reflexivity|exact ex_closure_run].
Defined.

Lemma create_family_get_base_witness :
  union_closed ex_closure
  ∧ size (get_base elements elements ex_closure) ≤ 2
  ∧ create_family_from_base elements 2
      (get_base elements elements ex_closure)
    = Some (ex_closure ∖ {[∅]}).
Proof.
  assert (size (get_base elements elements ex_closure) ≤ 2) as Hfuel
    by by_evaluation.
  split; [exact ex_closure_closed|]. split; [exact Hfuel|].
  apply (create_family_get_base elements elements);
    [intros s; reflexivity|intros F; reflexivity|exact ex_closure_closed
    |exact Hfuel].
Defined.

Lemma get_surmise_entries_witness :
  (∀ q, is_Some (get_surmise elements elements ex_chain !! q)
        ↔ ∃ A, A ∈ ex_chain ∧ q ∈ A)
  ∧ (∀ q S, get_surmise elements elements ex_chain !! q = Some S → S ≠ ∅).
Proof.
  apply (get_surmise_entries elements elements);
    [intros s; reflexivity|intros F; reflexivity].
Defined.

Lemma get_surmise_get_minimal_sets_witness :
  get_surmise elements elements ex_chain !! 2%Z = Some {[ ({[1; 2]})%Z ]}
  ∧ ({[ ({[1; 2]})%Z ]} : gset (gset Z))
    = list_to_set
        (get_minimal_sets (filter (λ A, 2%Z ∈ A) (elements ex_chain))).
Proof.
  assert (get_surmise elements elements ex_chain !! 2%Z
          = Some {[ ({[1; 2]})%Z ]}) as Hentry by by_evaluation.
  split; [exact Hentry|].
  apply (get_surmise_get_minimal_sets elements elements) with (q := 2%Z);
    [intros s; reflexivity|intros F; reflexivity|exact Hentry].
Defined.

Lemma project_family_compose_witness :
  project_family elements (project_family elements ex_family {[1%Z]})
    {[2%Z]}
  = project_family elements ex_family ({[1%Z]} ∪ {[2%Z]})
  ∧ project_family elements ex_family ∅ = ex_family.
Proof.
  apply (project_family_compose elements). intros F. reflexivity.
Defined.

Lemma project_family_closed_witness :
  (union_closed ex_closure →
   union_closed (project_family elements ex_closure {[1%Z]}))
  ∧ ({[1%Z]} ∈ ex_closure →
     ∅ ∈ project_family elements ex_closure {[1%Z]}).
Proof.
  apply (project_family_closed elements). intros F. reflexivity.
Defined.

Lemma create_family_project_family_witness :
  create_family_from_base elements 2 ex_base = Some ex_closure
  ∧ size (project_family elements ex_base {[1%Z]}) ≤ 2
  ∧ create_family_from_base elements 2
      (project_family elements ex_base {[1%Z]})
    = Some (project_family elements ex_closure {[1%Z]}).
Proof.
  assert (size (project_family elements ex_base {[1%Z]}) ≤ 2) as Hfuel
    by by_evaluation.
  split; [exact ex_closure_run|]. split; [exact Hfuel|].
  apply (create_family_project_family elements) with (fuel := 2);
    [intros F; reflexivity|exact ex_closure_run|exact Hfuel].
Defined.

Lemma create_family_members_witness :
  create_family_from_base elements 2 ex_base = Some ex_closure
  ∧ (∀ A, A ∈ ex_closure → ∃ b, b ∈ ex_base ∧ b ⊆ A)
  ∧ get_universe elements ex_closure = get_universe elements ex_base
  ∧ (∅ ∈ ex_closure ↔ ∅ ∈ ex_base).
Proof.
  split; [exact ex_closure_run|].
  apply (create_family_members elements) with (fuel := 2);
    [intros F; reflexivity|exact ex_closure_run].
Defined.

Lemma create_family_mono_witness :
  ex_base ⊆ ex_closure
  ∧ create_family_from_base elements 2 ex_base = Some ex_closure
  ∧ create_family_from_base elements 1 ex_closure = Some ex_closure
  ∧ ex_closure ⊆ ex_closure.
Proof.
  assert (ex_base ⊆ ex_closure) as Hsub by by_evaluation.
  assert (create_family_from_base elements 1 ex_closure = Some ex_closure)
    as Hrun' by by_evaluation.
  split; [exact Hsub|]. split; [exact ex_closure_run|].
  split; [exact Hrun'|].
  apply (create_family_mono elements) with (fuel := 2) (fuel' := 1)
    (base := ex_base) (base' := ex_closure);
    [intros F; reflexivity|exact Hsub|exact ex_closure_run|exact Hrun'].
Defined.

Lemma count_elements_correct_witness :
  ∃ count_dict,
    count_elements elements elements ex_family ({[1; 2]})%Z
    = Some count_dict
    ∧ dom count_dict = ({[1; 2]})%Z
    ∧ ∀ b, b ∈ ({[1; 2]} : gset Z)%Z →
           count_dict !! b = Some (size (filter (λ a, b ∈ a) ex_family)).
Proof.
  apply (count_elements_correct elements elements);
    [intros s; reflexivity|intros F; reflexivity].
Defined.

Lemma create_family_size_witness :
  create_family_from_base elements 2 ex_base = Some ex_closure
  ∧ size ex_closure ≤ 2 ^ size ex_base - 1.
Proof.
  split; [exact ex_closure_run|].
  apply (create_family_size elements) with (fuel := 2);
    [intros F; reflexivity|exact ex_closure_run].
Defined.

Lemma write_family_to_file_sorted_witness :
  ∃ fam_list,
    write_family_to_file elements elements ex_chain
    = sorted_line <$> fam_list
    ∧ fam_list ≡ₚ elements ex_chain
    ∧ StronglySorted (λ A B, size A ≤ size B) fam_list
    ∧ (∀ k, filter (λ A, size A = k) fam_list
            = filter (λ A, size A = k) (elements ex_chain))
    ∧ length (write_family_to_file elements elements ex_chain)
      = size ex_chain.
Proof.
  apply (write_family_to_file_sorted elements elements);
    [intros s; reflexivity|intros F; reflexivity].
Defined.

Lemma results_order_independent_witness :
  project_family elements ex_family {[1%Z]}
  = project_family reverse_order ex_family {[1%Z]}
  ∧ get_surmise elements elements ex_family
    = get_surmise slot_order reverse_order ex_family
  ∧ get_base elements elements ex_family
    = get_base slot_order reverse_order ex_family
  ∧ (∀ fuel, create_family_from_base elements fuel ex_family
             = create_family_from_base reverse_order fuel ex_family)
  ∧ count_elements elements elements ex_family {[1%Z]}
    = count_elements slot_order reverse_order ex_family {[1%Z]}.
Proof.
  apply (results_order_independent elements slot_order elements
           reverse_order);
    [intros s; reflexivity|apply slot_order_perm|intros F; reflexivity
    |apply reverse_order_perm].
Defined.

Lemma verdicts_order_independent_witness :
  is_union_closed elements ex_family
  = is_union_closed reverse_order ex_family
  ∧ is_intersection_closed elements ex_family
    = is_intersection_closed reverse_order ex_family
  ∧ is_X_closed elements ex_family {[1%Z]}
    = is_X_closed reverse_order ex_family {[1%Z]}
  ∧ has_unique_atoms elements elements ex_family
    = has_unique_atoms slot_order reverse_order ex_family
  ∧ (is_well_graded elements elements ex_family ex_base).2
    = (is_well_graded slot_order reverse_order ex_family ex_base).2.
Proof.
  apply (verdicts_order_independent elements slot_order elements
           reverse_order);
    [intros s; reflexivity|apply slot_order_perm|intros F; reflexivity
    |apply reverse_order_perm].
Defined.

Lemma write_family_to_file_inj_witness :
  NoDup (write_family_to_file elements elements ex_family)
  ∧ ((∀ line, line ∈ write_family_to_file elements elements ex_family
              ↔ line ∈ write_family_to_file slot_order reverse_order
                         ex_family) →
     ex_family = ex_family).
Proof.
  apply (write_family_to_file_inj elements slot_order elements
           reverse_order);
    [intros s; reflexivity|apply slot_order_perm|intros F; reflexivity
    |apply reverse_order_perm].
Defined.

Lemma project_family_create_family_witness :
  create_family_from_base elements 2 ex_base = Some ex_closure
  ∧ ({[1%Z]} : gset Z) ∈ ex_base
  ∧ ∅ ∈ project_family elements ex_closure {[1%Z]}
  ∧ union_closed (project_family elements ex_closure {[1%Z]}).
Proof.
  assert (({[1%Z]} : gset Z) ∈ ex_base) as Hb by by_evaluation.
  split; [exact ex_closure_run|]. split; [exact Hb|].
  apply (project_family_create_family elements) with (fuel := 2)
    (base := ex_base);
    [intros F; reflexivity|exact ex_closure_run|exact Hb].
Defined.
